(** * DominoRobot: smooth trajectory generation

    A shallow embedding of [SmoothTrajectoryGenerator.h] (kinematic
    primitives, dynamic limits, S-curve parameters, the trajectory facade).

    The C++ code computes in [float].  All arithmetic goes through the
    interface [Scalar]; its instance [float] is IEEE-754 binary32 as given
    by the standard library's [SpecFloat] (precision 24, [emax] 128,
    round to nearest even), and its instance [Q] is exact rational
    arithmetic.

    The embedding also covers the texts the [toString] members print, the
    position estimate of [Localization.cpp] and the pin assignment of
    [globals.h]. *)

From Stdlib Require Import Ascii String.
From Stdlib Require Import ZArith QArith Qabs Qpower Qfield Bool List Lia Lqa.
From Stdlib Require Import Floats.SpecFloat.
Import ListNotations.

Set Implicit Arguments.

(** ** Scalars *)

(** The operations the program applies to a [float]: conversion of an
    integer literal, the four arithmetic operations, [fabs], [sqrt] and the
    comparisons [==], [<], [<=]. *)
Class Scalar (F : Type) : Type := {
  of_int : Z -> F;
  fadd : F -> F -> F;
  fsub : F -> F -> F;
  fmul : F -> F -> F;
  fdiv : F -> F -> F;
  fabs : F -> F;
  fsqrt : F -> F;
  feqb : F -> F -> bool;
  fltb : F -> F -> bool;
  fleb : F -> F -> bool
}.

(** *** binary32 *)

Definition float : Type := spec_float.
Definition prec : Z := 24.
Definition emax : Z := 128.

Definition float_of_int (z : Z) : float := binary_normalize prec emax z 0 false.

#[export] Instance float_Scalar : Scalar float := {
  of_int := float_of_int;
  fadd := SFadd prec emax;
  fsub := SFsub prec emax;
  fmul := SFmul prec emax;
  fdiv := SFdiv prec emax;
  fabs := SFabs;
  fsqrt := SFsqrt prec emax;
  feqb := SFeqb;
  fltb := SFltb;
  fleb := SFleb
}.

(** A [float] the hardware can hold: the mantissa is canonical for the
    exponent and the exponent is in range. *)
Definition valid (x : float) : Prop := valid_binary prec emax x = true.

(** The value a [float] denotes: not a number, an infinity, or a rational. *)
Inductive xval : Type :=
| XNaN
| XInf (neg : bool)
| XFin (q : Q).

Definition F2X (x : float) : xval :=
  match x with
  | S754_nan => XNaN
  | S754_infinity s => XInf s
  | S754_zero _ => XFin 0
  | S754_finite s m e => XFin (inject_Z (cond_Zopp s (Zpos m)) * (2 # 1) ^ e)
  end.

Definition xabs (v : xval) : xval :=
  match v with
  | XNaN => XNaN
  | XInf _ => XInf false
  | XFin q => XFin (Qabs q)
  end.

(** Strict order of IEEE values: nothing compares with NaN. *)
Definition xlt (u v : xval) : Prop :=
  match u, v with
  | XNaN, _ | _, XNaN => False
  | XInf s1, XInf s2 => s1 = true /\ s2 = false
  | XInf s, XFin _ => s = true
  | XFin _, XInf s => s = false
  | XFin p, XFin q => p < q
  end.

(** *** Exact rationals *)

(** Square root on [Q], exact on squares of rationals. *)
Definition Qsqrt (q : Q) : Q := Z.sqrt (Qnum q * Zpos (Qden q)) # Qden q.

Definition Qlt_bool (p q : Q) : bool := negb (Qle_bool q p).

#[export] Instance Q_Scalar : Scalar Q := {
  of_int := inject_Z;
  fadd := Qplus;
  fsub := Qminus;
  fmul := Qmult;
  fdiv := Qdiv;
  fabs := Qabs;
  fsqrt := Qsqrt;
  feqb := Qeq_bool;
  fltb := Qlt_bool;
  fleb := Qle_bool
}.

(** ** Kinematic primitives *)

Record Point {F : Type} : Type := mkPoint { x_ : F; y_ : F; a_ : F }.
Arguments Point : clear implicits.

Record Velocity {F : Type} : Type := mkVelocity { vx_ : F; vy_ : F; va_ : F }.
Arguments Velocity : clear implicits.

Record PVTPoint {F : Type} : Type := mkPVTPoint {
  position_ : Point F;
  velocity_ : Velocity F;
  time_ : F
}.
Arguments PVTPoint : clear implicits.

Record DynamicLimits {F : Type} : Type := mkDynamicLimits {
  max_vel_ : F;
  max_acc_ : F;
  max_jerk_ : F
}.
Arguments DynamicLimits : clear implicits.

Section Primitives.
Context {F : Type} `{Scalar F}.

(** The literal [0] of the default arguments, converted to [float]. *)
Definition f0 : F := of_int 0.

(** The default tolerance [1e-6]. *)
Definition eps : F := fdiv (of_int 1) (of_int 1000000).

(** [Point(float x=0, float y=0, float a=0)]: an omitted argument is
    [None]. *)
Definition Point_ctor (x y a : option F) : Point F :=
  mkPoint (match x with Some v => v | None => f0 end)
          (match y with Some v => v | None => f0 end)
          (match a with Some v => v | None => f0 end).

(** [Point::operator==] *)
Definition Point_eq (p other : Point F) : bool :=
  feqb (x_ p) (x_ other) && feqb (y_ p) (y_ other) && feqb (a_ p) (a_ other).

(** [Velocity(float vx=0, float vy=0, float va=0)] *)
Definition Velocity_ctor (vx vy va : option F) : Velocity F :=
  mkVelocity (match vx with Some v => v | None => f0 end)
             (match vy with Some v => v | None => f0 end)
             (match va with Some v => v | None => f0 end).

(** [Velocity::operator==] *)
Definition Velocity_eq (v other : Velocity F) : bool :=
  feqb (vx_ v) (vx_ other) && feqb (vy_ v) (vy_ other)
  && feqb (va_ v) (va_ other).

(** [Velocity::nearZero(float eps)] *)
Definition nearZero (v : Velocity F) (eps : F) : bool :=
  if fltb (fabs (vx_ v)) eps && fltb (fabs (vy_ v)) eps
     && fltb (fabs (va_ v)) eps
  then true
  else false.

(** [PVTPoint] has no constructor of its own: its members [position_] and
    [velocity_] are default-constructed, [time_] holds whatever the
    initialisation leaves there. *)
Definition PVTPoint_default (time : F) : PVTPoint F :=
  mkPVTPoint (Point_ctor None None None) (Velocity_ctor None None None) time.

(** [DynamicLimits::operator*] *)
Definition DynamicLimits_mul (l : DynamicLimits F) (c : F) : DynamicLimits F :=
  mkDynamicLimits (fmul c (max_vel_ l)) (fmul c (max_acc_ l))
                  (fmul c (max_jerk_ l)).
End Primitives.

(** ** S-curve parameters, trajectories, planning problems *)

(** [SwitchPoint]; the acceleration field [a_] is [acc_] here, [a_] being
    the heading of [Point]. *)
Record SwitchPoint {F : Type} : Type := mkSwitchPoint {
  t_ : F;
  p_ : F;
  v_ : F;
  acc_ : F
}.
Arguments SwitchPoint : clear implicits.

(** [SCurveParameters]; [switch_points_] is the array of eight entries. *)
Record SCurveParameters {F : Type} : Type := mkSCurveParameters {
  v_lim_ : F;
  a_lim_ : F;
  j_lim_ : F;
  switch_points_ : list (SwitchPoint F)
}.
Arguments SCurveParameters : clear implicits.

(** [Eigen::Vector2f] and [Eigen::Vector3f]. *)
Record Vector2f {F : Type} : Type := mkVector2f { e0 : F; e1 : F }.
Arguments Vector2f : clear implicits.

Record Vector3f {F : Type} : Type := mkVector3f { c0 : F; c1 : F; c2 : F }.
Arguments Vector3f : clear implicits.

Record Trajectory {F : Type} : Type := mkTrajectory {
  trans_direction_ : Vector2f F;
  rot_direction_ : Z;
  initialPoint_ : Point F;
  trans_params_ : SCurveParameters F;
  rot_params_ : SCurveParameters F;
  complete_ : bool
}.
Arguments Trajectory : clear implicits.

Record SolverParameters {F : Type} : Type := mkSolverParameters {
  num_loops_ : Z;
  alpha_decay_ : F;
  beta_decay_ : F;
  exponent_decay_ : F
}.
Arguments SolverParameters : clear implicits.

(** [MotionPlanningProblem]; its fields carry the prefix [mpp_] where the
    name is already a field of [Trajectory] or of the generator. *)
Record MotionPlanningProblem {F : Type} : Type := mkMotionPlanningProblem {
  mpp_initialPoint_ : Vector3f F;
  mpp_targetPoint_ : Vector3f F;
  translationalLimits_ : DynamicLimits F;
  rotationalLimits_ : DynamicLimits F;
  mpp_solver_params_ : SolverParameters F
}.
Arguments MotionPlanningProblem : clear implicits.

(** The members of [class SmoothTrajectoryGenerator]. *)
Record SmoothTrajectoryGenerator {F : Type} : Type := mkSmoothTrajectoryGenerator {
  currentTrajectory_ : Trajectory F;
  solver_params_ : SolverParameters F
}.
Arguments SmoothTrajectoryGenerator : clear implicits.

(** ** The solver, the evaluator and the stored trajectory

    The header only declares these functions; their bodies follow the
    design document of the generator, section by section.  The document
    does not determine what the synchronizer and the constant-velocity
    mode compute: a stored trajectory is described by what the document
    says of every one of them, and a point-to-point trajectory as one
    whose axes are solved under some limits. *)

Section Generator.
Context {F : Type} `{Scalar F}.

(** [pow] of the C library, used for the decay [k^e] of the search. *)
Variable powf : F -> F -> F.

(** The helper that brings a heading difference into the half-open
    interval from minus pi to pi (the document names the interval, not
    the algorithm). *)
Variable wrapAngle : F -> F.

Definition f1 : F := of_int 1.
Definition half : F := fdiv (of_int 1) (of_int 2).
Definition sixth : F := fdiv (of_int 1) (of_int 6).

(** Modelled from the spec: equality within the tolerance [1e-6] of the
    comparisons. *)
Definition within_eps (a b : F) : bool := fltb (fabs (fsub a b)) eps.

Definition origin_switch_point : SwitchPoint F := mkSwitchPoint f0 f0 f0 f0.

(** [params.switch_points_[i]] *)
Definition switch_point (params : SCurveParameters F) (i : nat) : SwitchPoint F :=
  nth i (switch_points_ params) origin_switch_point.

(** Modelled from the spec: sign of the jerk in each of the seven regions,
    [[+1, 0, -1, 0, -1, 0, +1]]. *)
Definition region_sign (region : nat) : Z :=
  match region with
  | 0%nat => 1
  | 2%nat => -1
  | 4%nat => -1
  | 6%nat => 1
  | _ => 0
  end.

(** Modelled from the spec: [computeKinematicsBasedOnRegion], declared in
    the header, body missing.  Integration of constant jerk from switch
    point [region] over [dt]; the result is the vector [[p; v; a]]. *)
Definition computeKinematicsBasedOnRegion (params : SCurveParameters F)
    (region : nat) (dt : F) : list F :=
  let sp := switch_point params region in
  let j := fmul (of_int (region_sign region)) (j_lim_ params) in
  let a := fadd (acc_ sp) (fmul j dt) in
  let v := fadd (fadd (v_ sp) (fmul (acc_ sp) dt))
                (fmul (fmul half j) (fmul dt dt)) in
  let p := fadd (fadd (fadd (p_ sp) (fmul (v_ sp) dt))
                      (fmul (fmul half (acc_ sp)) (fmul dt dt)))
                (fmul (fmul sixth j) (fmul (fmul dt dt) dt)) in
  [p; v; a].

(** Modelled from the spec: the switch point that ends region [region],
    [dt] after its start (one step of [populateSwitchTimeParameters]). *)
Definition next_switch_point (params : SCurveParameters F) (region : nat)
    (dt : F) : SwitchPoint F :=
  let k := computeKinematicsBasedOnRegion params region dt in
  mkSwitchPoint (fadd (t_ (switch_point params region)) dt)
                (nth 0 k f0) (nth 1 k f0) (nth 2 k f0).

Definition set_switch_points (params : SCurveParameters F)
    (sps : list (SwitchPoint F)) : SCurveParameters F :=
  mkSCurveParameters (v_lim_ params) (a_lim_ params) (j_lim_ params) sps.

Fixpoint fill_switch_points (params : SCurveParameters F) (region : nat)
    (durations : list F) : SCurveParameters F :=
  match durations with
  | [] => params
  | dt :: rest =>
      fill_switch_points
        (set_switch_points params
           (switch_points_ params ++ [next_switch_point params region dt]))
        (S region) rest
  end.

(** Modelled from the spec: [populateSwitchTimeParameters], declared in
    the header, body missing.  Entry 0 is the origin; the seven segments
    last [dt_j, dt_a, dt_j, dt_v, dt_j, dt_a, dt_j]. *)
Definition populateSwitchTimeParameters (params : SCurveParameters F)
    (dt_j dt_a dt_v : F) : SCurveParameters F :=
  fill_switch_points (set_switch_points params [origin_switch_point]) 0
    [dt_j; dt_a; dt_j; dt_v; dt_j; dt_a; dt_j].

(** Modelled from the spec: one attempt of [generateSCurve] under limits
    [(V, A, J)]: the segment times, the switch points, and the feasibility
    test (the three times non-negative, the reconstructed displacement
    equal to the distance within the tolerance). *)
Definition solve_with_limits (d V A J : F) : option (SCurveParameters F) :=
  let dt_j := fdiv A J in
  let dt_a := fsub (fdiv V A) (fdiv A J) in
  let dt_v := fsub (fsub (fdiv d V) (fdiv V A)) (fdiv A J) in
  let params :=
    populateSwitchTimeParameters (mkSCurveParameters V A J []) dt_j dt_a dt_v in
  if fleb f0 dt_j && fleb f0 dt_a && fleb f0 dt_v
     && within_eps (p_ (switch_point params 7)) d
  then Some params
  else None.

(** Modelled from the spec: the limit-relaxation search of
    [generateSCurve] from iteration [k] on, [fuel] iterations left:
    velocity and acceleration decay, jerk is never scaled. *)
Fixpoint relax_limits (solver : SolverParameters F) (d : F)
    (limits : DynamicLimits F) (fuel : nat) (k : Z)
    : option (SCurveParameters F) :=
  match fuel with
  | O => None
  | S fuel' =>
      let decay := powf (of_int k) (exponent_decay_ solver) in
      let V_k := fmul (max_vel_ limits)
                      (fsub f1 (fmul (alpha_decay_ solver) decay)) in
      let A_k := fmul (max_acc_ limits)
                      (fsub f1 (fmul (beta_decay_ solver) decay)) in
      match solve_with_limits d V_k A_k (max_jerk_ limits) with
      | Some params => Some params
      | None => relax_limits solver d limits fuel' (k + 1)
      end
  end.

(** Modelled from the spec: [generateSCurve], declared in the header,
    body missing.  The nominal limits first, then up to [num_loops_]
    relaxed trials; [None] is the return value [false]. *)
Definition generateSCurve (dist : F) (limits : DynamicLimits F)
    (solver : SolverParameters F) : option (SCurveParameters F) :=
  let d := fabs dist in
  match solve_with_limits d (max_vel_ limits) (max_acc_ limits)
                          (max_jerk_ limits) with
  | Some params => Some params
  | None => relax_limits solver d limits (Z.to_nat (num_loops_ solver)) 1
  end.







(** Modelled from the spec: the profile of zero duration of a degenerate
    move, eight switch points at the origin. *)
Definition zero_duration (limits : DynamicLimits F) : SCurveParameters F :=
  mkSCurveParameters (max_vel_ limits) (max_acc_ limits) (max_jerk_ limits)
    (repeat origin_switch_point 8).






End Generator.

(** ** Text output: [toString]

    Every [toString] of the header prints with [sprintf] into a local
    [char] array and returns the array as a [std::string].  A text is a
    list of characters; [sprintf] stores it with a terminating zero, so
    an array of [size] bytes holds it when it is shorter than [size]. *)

Definition text : Type := list ascii.

Definition literal (s : string) : text := list_ascii_of_string s.

(** The character ['\n'] of the format strings. *)
Definition newline : text := [ascii_of_nat 10].

Definition fits (size : nat) (t : text) : Prop := (length t < size)%nat.

Definition digit (d : Z) : ascii := ascii_of_nat (48 + Z.to_nat d).

(** The decimal digits of [n >= 0], the most significant first; [fuel]
    bounds their number. *)
Fixpoint decimal_digits_from (fuel : nat) (n : Z) (acc : text) : text :=
  match fuel with
  | O => acc
  | S fuel' =>
      let acc' := digit (n mod 10) :: acc in
      if (n <? 10)%Z then acc' else decimal_digits_from fuel' (n / 10) acc'
  end.

(** A number has no more decimal digits than binary ones. *)
Definition decimal_digits (n : Z) : text :=
  decimal_digits_from (S (Z.to_nat (Z.log2 n))) n [].

Definition minus_sign (s : bool) : text := if s then literal "-" else [].

(** The integer nearest to [num / den] for [den > 0], ties to the even
    one. *)
Definition round_half_even (num den : Z) : Z :=
  let q := (num / den)%Z in
  match (2 * (num mod den) ?= den)%Z with
  | Lt => q
  | Gt => (q + 1)%Z
  | Eq => if Z.even q then q else (q + 1)%Z
  end.

(** The magnitude [m * 2^e] times [10^decimals], rounded to an integer. *)
Definition scaled_magnitude (decimals : nat) (m : positive) (e : Z) : Z :=
  let p := (10 ^ Z.of_nat decimals)%Z in
  if (0 <=? e)%Z then (Zpos m * 2 ^ e * p)%Z
  else round_half_even (Zpos m * p) (2 ^ (- e)).

(** The digits after the decimal point: [r] written with [decimals]
    digits. *)
Definition fraction_digits (decimals : nat) (r : Z) : text :=
  let ds := decimal_digits r in
  repeat (digit 0) (decimals - length ds) ++ ds.

(** A magnitude scaled by [10^decimals] as [ddd.ddd]; no point is written
    when [decimals] is zero. *)
Definition fixed_digits (decimals : nat) (scaled : Z) : text :=
  let p := (10 ^ Z.of_nat decimals)%Z in
  decimal_digits (scaled / p)
  ++ match decimals with
     | O => []
     | S _ => literal "." ++ fraction_digits decimals (scaled mod p)
     end.

(** The conversion [%.Nf] of [printf] applied to a [float] (passed as a
    [double], which holds every [float] exactly): the value is rounded
    to [N] decimals; an infinity is printed as the C library of the GNU
    system prints it.  A NaN is printed as [nan]: [float] has one NaN
    without a sign here, and the minus sign which that library writes
    before a NaN whose sign bit is set is not modelled. *)
Definition format_fixed (decimals : nat) (x : float) : text :=
  match x with
  | S754_nan => literal "nan"
  | S754_infinity s => minus_sign s ++ literal "inf"
  | S754_zero s => minus_sign s ++ fixed_digits decimals 0
  | S754_finite s m e =>
      minus_sign s ++ fixed_digits decimals (scaled_magnitude decimals m e)
  end.

(** The conversion [%i] applied to an [int]. *)
Definition format_int (n : Z) : text :=
  minus_sign (n <? 0)%Z ++ decimal_digits (Z.abs n).

(** [Point::toString]: the text printed into [char s[100]]. *)
Definition Point_toString (p : Point float) : text :=
  literal "[x: " ++ format_fixed 3 (x_ p)
  ++ literal ", y: " ++ format_fixed 3 (y_ p)
  ++ literal ", a: " ++ format_fixed 3 (a_ p) ++ literal "]".

(** [Velocity::toString]: the text printed into [char s[100]]. *)
Definition Velocity_toString (v : Velocity float) : text :=
  literal "[vx: " ++ format_fixed 3 (vx_ v)
  ++ literal ", vy: " ++ format_fixed 3 (vy_ v)
  ++ literal ", va: " ++ format_fixed 3 (va_ v) ++ literal "]".

(** [PVTPoint::toString]: the text printed into [char s[200]]. *)
Definition PVTPoint_toString (p : PVTPoint float) : text :=
  literal "[Position: " ++ Point_toString (position_ p)
  ++ literal ", Velocity: " ++ Velocity_toString (velocity_ p)
  ++ literal ", T: " ++ format_fixed 3 (time_ p) ++ literal "]".

(** [SCurveParameters::toString]: the text printed into [char s[256]];
    [times] are the eight [switch_points_[i].t_]. *)
Definition SCurveParameters_toString (params : SCurveParameters float) : text :=
  let t (i : nat) := format_fixed 3 (t_ (switch_point params i)) in
  literal "    Limits: [v: " ++ format_fixed 3 (v_lim_ params)
  ++ literal ", a: " ++ format_fixed 3 (a_lim_ params)
  ++ literal ", j: " ++ format_fixed 3 (j_lim_ params)
  ++ literal "]" ++ newline
  ++ literal "    Switch times: [" ++ t 0%nat
  ++ literal ", " ++ t 1%nat ++ literal ", " ++ t 2%nat
  ++ literal ", " ++ t 3%nat ++ literal ", " ++ t 4%nat
  ++ literal ", " ++ t 5%nat ++ literal ", " ++ t 6%nat
  ++ literal ", " ++ t 7%nat ++ literal "]".

(** [Trajectory::toString]: the text printed into [char s[1000]]. *)
Definition Trajectory_toString (traj : Trajectory float) : text :=
  literal "Trajectory Parameters:" ++ newline
  ++ literal "Translation:" ++ newline
  ++ literal "  Direction: [" ++ format_fixed 2 (e0 (trans_direction_ traj))
  ++ literal ", " ++ format_fixed 2 (e1 (trans_direction_ traj))
  ++ literal "]" ++ newline
  ++ literal "  S-Curve:" ++ newline
  ++ SCurveParameters_toString (trans_params_ traj) ++ newline
  ++ literal "Rotation:" ++ newline
  ++ literal "  Direction: " ++ format_int (rot_direction_ traj) ++ newline
  ++ literal "  S-Curve:" ++ newline
  ++ SCurveParameters_toString (rot_params_ traj) ++ newline.

(** ** Localization

    [Localization.cpp]: the position estimate blended from beacon readings
    and integrated velocities.  The file reads the components of a point
    and of a velocity as [x], [y], [a] and [vx], [vy], [va]. *)

(** Unary minus. *)
Class Negation (F : Type) : Type := fopp : F -> F.

#[export] Instance float_Negation : Negation float := SFopp.

(** The members of [class Localization] that the two updates use; the four
    configuration values are read by the constructor.  The declaration of
    the class is not part of the sources: the members are [float], as are
    the constants [1000.0f] and [0.0f] they are combined with. *)
Record Localization {F : Type} : Type := mkLocalization {
  pos_ : Point F;
  vel_ : Velocity F;
  update_fraction_at_zero_vel_ : F;
  val_for_zero_update_ : F;
  mm_x_offset_ : F;
  mm_y_offset_ : F
}.
Arguments Localization : clear implicits.

(** [Eigen::Matrix3f], filled row by row. *)
Record Matrix3f {F : Type} : Type := mkMatrix3f {
  row0 : Vector3f F;
  row1 : Vector3f F;
  row2 : Vector3f F
}.
Arguments Matrix3f : clear implicits.

(** The order in which the linear-algebra library adds three terms: from
    the left, or the first to the sum of the other two.  It is a choice of
    the library and not of this program. *)
Inductive summation : Type := sequential | halves.

Section Localization.
Context {F : Type} `{Scalar F} `{Negation F}.

(** [cos] and [sin] of the C library. *)
Variables cos sin : F -> F.
Variable order : summation.

Definition sum3 (a b c : F) : F :=
  match order with
  | sequential => fadd (fadd a b) c
  | halves => fadd a (fadd b c)
  end.

Definition dot3 (u v : Vector3f F) : F :=
  sum3 (fmul (c0 u) (c0 v)) (fmul (c1 u) (c1 v)) (fmul (c2 u) (c2 v)).

(** [M * v] *)
Definition Matrix3f_mul (M : Matrix3f F) (v : Vector3f F) : Vector3f F :=
  mkVector3f (dot3 (row0 M) v) (dot3 (row1 M) v) (dot3 (row2 M) v).

(** [u - v] *)
Definition Vector3f_sub (u v : Vector3f F) : Vector3f F :=
  mkVector3f (fsub (c0 u) (c0 v)) (fsub (c1 u) (c1 v)) (fsub (c2 u) (c2 v)).

(** [v.norm()] *)
Definition Vector3f_norm (v : Vector3f F) : F := fsqrt (dot3 v v).

(** [std::min] and [std::max]: the first argument unless the comparison
    picks the second. *)
Definition std_min (a b : F) : F := if fltb b a then b else a.
Definition std_max (a b : F) : F := if fltb a b then b else a.

(** [Localization::Localization()], the four values being those the
    configuration holds. *)
Definition Localization_ctor (update_fraction_at_zero_vel val_for_zero_update
    mm_x_offset mm_y_offset : F) : Localization F :=
  mkLocalization
    (Point_ctor (Some (of_int 0)) (Some (of_int 0)) (Some (of_int 0)))
    (Velocity_ctor (Some (of_int 0)) (Some (of_int 0)) (Some (of_int 0)))
    update_fraction_at_zero_vel val_for_zero_update mm_x_offset mm_y_offset.

(** The local [adjusted_measured_position] of [updatePositionReading]: the
    reading moved from the centre of the beacon pair to the centre of
    rotation. *)
Definition adjusted_measured_position (loc : Localization F)
    (global_position : Point F) : Vector3f F :=
  let raw_measured_position :=
    mkVector3f (x_ global_position) (y_ global_position) (a_ global_position) in
  let local_offset :=
    mkVector3f (fdiv (mm_x_offset_ loc) (of_int 1000))
               (fdiv (mm_y_offset_ loc) (of_int 1000)) f0 in
  let cA := cos (a_ global_position) in
  let sA := sin (a_ global_position) in
  let rotation :=
    mkMatrix3f (mkVector3f cA (fopp sA) f0)
               (mkVector3f sA cA f0)
               (mkVector3f f0 f0 f1) in
  Vector3f_sub raw_measured_position (Matrix3f_mul rotation local_offset).

(** The local [update_fraction] of [updatePositionReading] after its
    clamp. *)
Definition update_fraction (loc : Localization F) : F :=
  let v := mkVector3f (vx_ (vel_ loc)) (vy_ (vel_ loc)) (va_ (vel_ loc)) in
  let total_v := Vector3f_norm v in
  let slope :=
    fdiv (update_fraction_at_zero_vel_ loc) (fopp (val_for_zero_update_ loc)) in
  let update_fraction :=
    fadd (update_fraction_at_zero_vel_ loc) (fmul slope total_v) in
  std_max (std_min update_fraction (update_fraction_at_zero_vel_ loc)) f0.

Definition set_pos (loc : Localization F) (p : Point F) : Localization F :=
  mkLocalization p (vel_ loc) (update_fraction_at_zero_vel_ loc)
                 (val_for_zero_update_ loc) (mm_x_offset_ loc) (mm_y_offset_ loc).

(** [Localization::updatePositionReading] *)
Definition updatePositionReading (loc : Localization F)
    (global_position : Point F) : Localization F :=
  let adjusted := adjusted_measured_position loc global_position in
  let fraction := update_fraction loc in
  let pos := pos_ loc in
  set_pos loc
    (mkPoint (fadd (x_ pos) (fmul fraction (fsub (c0 adjusted) (x_ pos))))
             (fadd (y_ pos) (fmul fraction (fsub (c1 adjusted) (y_ pos))))
             (fadd (a_ pos) (fmul fraction (fsub (c2 adjusted) (a_ pos))))).

(** [Localization::updateVelocityReading] *)
Definition updateVelocityReading (loc : Localization F)
    (local_cart_vel : Velocity F) (dt : F) : Localization F :=
  let cA := cos (a_ (pos_ loc)) in
  let sA := sin (a_ (pos_ loc)) in
  let vel :=
    mkVelocity
      (fsub (fmul cA (vx_ local_cart_vel)) (fmul sA (vy_ local_cart_vel)))
      (fadd (fmul sA (vx_ local_cart_vel)) (fmul cA (vy_ local_cart_vel)))
      (va_ local_cart_vel) in
  let pos := pos_ loc in
  mkLocalization
    (mkPoint (fadd (x_ pos) (fmul (vx_ vel) dt))
             (fadd (y_ pos) (fmul (vy_ vel) dt))
             (fadd (a_ pos) (fmul (va_ vel) dt)))
    vel (update_fraction_at_zero_vel_ loc) (val_for_zero_update_ loc)
    (mm_x_offset_ loc) (mm_y_offset_ loc).
End Localization.

(** ** Pin assignment

    [globals.h]: the pins of the motor driver; the encoder channels A and
    B, the direction and the PWM pins are those of the motors 1 to 4. *)

Definition PIN_ENABLE : Z := 52.

Definition PIN_ENCA_1 : Z := 21.
Definition PIN_ENCA_2 : Z := 20.
Definition PIN_ENCA_3 : Z := 18.
Definition PIN_ENCA_4 : Z := 19.

Definition PIN_ENCB_1 : Z := 25.
Definition PIN_ENCB_2 : Z := 24.
Definition PIN_ENCB_3 : Z := 22.
Definition PIN_ENCB_4 : Z := 23.

Definition PIN_DIR_1 : Z := 39.
Definition PIN_DIR_2 : Z := 13.
Definition PIN_DIR_3 : Z := 12.
Definition PIN_DIR_4 : Z := 37.

Definition PIN_PWM_1 : Z := 5.
Definition PIN_PWM_2 : Z := 6.
Definition PIN_PWM_3 : Z := 7.
Definition PIN_PWM_4 : Z := 4.

(** Every pin the file assigns, in the order of the file. *)
Definition pins : list Z :=
  [PIN_ENABLE;
   PIN_ENCA_1; PIN_ENCA_2; PIN_ENCA_3; PIN_ENCA_4;
   PIN_ENCB_1; PIN_ENCB_2; PIN_ENCB_3; PIN_ENCB_4;
   PIN_DIR_1; PIN_DIR_2; PIN_DIR_3; PIN_DIR_4;
   PIN_PWM_1; PIN_PWM_2; PIN_PWM_3; PIN_PWM_4].

(** ** Concrete configurations

    Limits, solver parameters and library functions on which the model is
    run: [0.5 m/s], [0.5 m/s^2], [1 m/s^3] on both axes, ten relaxation
    loops with decays [0.1] and exponent [2]. *)

Definition demo_limits : DynamicLimits float :=
  mkDynamicLimits (fdiv (of_int 1) (of_int 2)) (fdiv (of_int 1) (of_int 2))
                  (of_int 1).

Definition demo_solver : SolverParameters float :=
  mkSolverParameters 10 (fdiv (of_int 1) (of_int 10))
                     (fdiv (of_int 1) (of_int 10)) (of_int 2).

(** [pow(x, e)] at the configured exponent [e = 2]. *)
Definition pow_square (x e : float) : float := fmul x x.



(** A generator that has not stored a trajectory yet. *)
Definition fresh_generator : SmoothTrajectoryGenerator float :=
  mkSmoothTrajectoryGenerator
    (mkTrajectory (mkVector2f f0 f0) 0 (Point_ctor None None None)
                  (zero_duration demo_limits) (zero_duration demo_limits) false)
    demo_solver.

Definition point_of_ints (x y a : Z) : Point float :=
  mkPoint (of_int x) (of_int y) (of_int a).





(** ** Predicates of the statements *)

(** Equality of two IEEE values as [==] sees it: no NaN on either side,
    zeros of either sign alike, otherwise the same number. *)
Definition ieee_eq (x y : float) : Prop :=
  match x, y with
  | S754_nan, _ | _, S754_nan => False
  | S754_zero _, S754_zero _ => True
  | _, _ => x = y
  end.

(** The magnitude of [x] is strictly below [e], on the denoted values. *)
Definition magnitude_below (x e : float) : Prop := xlt (xabs (F2X x)) (F2X e).

Definition valid_velocity (v : Velocity float) : Prop :=
  valid (vx_ v) /\ valid (vy_ v) /\ valid (va_ v).

(** The eight switch-point times never decrease. *)
Definition monotone_times {F : Type} `{Scalar F} (params : SCurveParameters F)
    : Prop :=
  forall i : nat, (i < 7)%nat ->
    fleb (t_ (switch_point params i)) (t_ (switch_point params (S i))) = true.

(** Times in a list of switch points never decrease from one entry to the
    next. *)
Definition sorted_times {F : Type} `{Scalar F} (sps : list (SwitchPoint F))
    : Prop :=
  forall i : nat, (S i < length sps)%nat ->
    fleb (t_ (nth i sps origin_switch_point))
         (t_ (nth (S i) sps origin_switch_point)) = true.

(** A duration the arithmetic can produce and that is not negative. *)
Definition good_duration {F : Type} `{Scalar F} (ok : F -> Prop) (d : F) : Prop :=
  ok d /\ fleb f0 d = true.

(** Neither a NaN nor an infinity. *)
Definition finite_float (x : float) : bool :=
  match x with
  | S754_zero _ | S754_finite _ _ _ => true
  | _ => false
  end.

(** The binary order of magnitude of a finite float is at most [k]: its
    absolute value is below [2^k]. *)
Definition magnitude_at_most (k : Z) (x : float) : Prop :=
  match x with
  | S754_finite _ m e => (Zpos (digits2_pos m) + e <= k)%Z
  | _ => True
  end.

(** Not a NaN. *)
Definition not_nan (x : float) : Prop := x <> S754_nan.

(** No component is NaN. *)
Definition no_nan_point (p : Point float) : Prop :=
  not_nan (x_ p) /\ not_nan (y_ p) /\ not_nan (a_ p).

(** No component is NaN. *)
Definition no_nan_velocity (v : Velocity float) : Prop :=
  not_nan (vx_ v) /\ not_nan (vy_ v) /\ not_nan (va_ v).

(** Limits the hardware can hold. *)
Definition valid_limits (l : DynamicLimits float) : Prop :=
  valid (max_vel_ l) /\ valid (max_acc_ l) /\ valid (max_jerk_ l).

(** A finite float that is not negative. *)
Definition finite_nonneg (x : float) : Prop :=
  finite_float x = true /\ SFleb (S754_zero false) x = true.

(** Each limit of [a] is at most the same limit of [b]. *)
Definition limits_le (a b : DynamicLimits float) : Prop :=
  SFleb (max_vel_ a) (max_vel_ b) = true
  /\ SFleb (max_acc_ a) (max_acc_ b) = true
  /\ SFleb (max_jerk_ a) (max_jerk_ b) = true.

(** Limits that are all zero. *)
Definition zero_limits : DynamicLimits float :=
  mkDynamicLimits (S754_zero false) (S754_zero false) (S754_zero false).

(** A zero of either sign. *)
Definition is_zero (x : float) : bool :=
  match x with S754_zero _ => true | _ => false end.

(** Every component of the velocity is a zero. *)
Definition at_rest (v : Velocity float) : Prop :=
  is_zero (vx_ v) && is_zero (vy_ v) && is_zero (va_ v) = true.

(** Finite, with a magnitude below [2^b]. *)
Definition finite_below (b : Z) (x : float) : Prop :=
  finite_float x = true /\ magnitude_at_most b x.

(** Finite, with a magnitude of at least [2^b]. *)
Definition finite_from (b : Z) (x : float) : Prop :=
  match x with
  | S754_finite _ m e => (b < Zpos (digits2_pos m) + e)%Z
  | _ => False
  end.

(** Finite, with a magnitude from [2^70] up to [2^73]. *)
Definition in_wide_band (x : float) : Prop :=
  finite_from 70 x /\ finite_below 73 x.



(** Every coordinate is a float the hardware can hold. *)
Definition valid_point (p : Point float) : Prop :=
  valid (x_ p) /\ valid (y_ p) /\ valid (a_ p).

(** Zero or above, an infinity included. *)
Definition not_negative (x : float) : Prop := SFleb (S754_zero false) x = true.

(** Zero or below, an infinity included. *)
Definition not_positive (x : float) : Prop := SFleb x (S754_zero false) = true.

(** [new] is NaN, or it is not on the other side of [old] than [goal]. *)
Definition toward (old goal new : float) : Prop :=
  new = S754_nan
  \/ ((SFleb old goal = true -> SFleb old new = true)
      /\ (SFleb goal old = true -> SFleb new old = true)).

(** The sign a rounded result carries. *)
Definition signed (s : bool) (r : float) : Prop :=
  match r with
  | S754_nan => False
  | S754_zero s' | S754_infinity s' | S754_finite s' _ _ => s' = s
  end.

(** * Properties *)

(** ** Comparisons of [float] *)

Ltac float_cases :=
  repeat match goal with
         | x : float |- _ => destruct x
         | x : spec_float |- _ => destruct x
         | s : bool |- _ => destruct s
         end.

Ltac order_cases :=
  repeat match goal with
         | |- context [Pos.compare_cont Eq ?a ?b] =>
             change (Pos.compare_cont Eq a b) with (Pos.compare a b)
         | H : context [Pos.compare_cont Eq ?a ?b] |- _ =>
             change (Pos.compare_cont Eq a b) with (Pos.compare a b) in H
         | |- context [Z.compare ?a ?b] => destruct (Z.compare_spec a b)
         | H : context [Z.compare ?a ?b] |- _ => destruct (Z.compare_spec a b)
         | |- context [Pos.compare ?a ?b] => destruct (Pos.compare_spec a b)
         | H : context [Pos.compare ?a ?b] |- _ => destruct (Pos.compare_spec a b)
         end.

(** [<] followed by [<=] is [<]: the comparison orders signs, then
    exponents, then mantissas. *)
Lemma SFltb_leb_trans (x y z : float) :
  SFltb x y = true -> SFleb y z = true -> SFltb x z = true.
Proof.
  unfold SFltb, SFleb, SFcompare; float_cases; simpl;
    try discriminate; try reflexivity;
    order_cases; simpl; try discriminate; try reflexivity; intros; lia.
Qed.

Lemma SFeqb_ieee_eq (x y : float) : SFeqb x y = true <-> ieee_eq x y.
Proof.
  unfold SFeqb, SFcompare, ieee_eq; float_cases; simpl;
    try (split; [discriminate | intros []]; fail);
    try (split; [discriminate | discriminate]; fail);
    try (split; reflexivity);
    order_cases; simpl; (split; intro E);
    try discriminate; try reflexivity; try congruence;
    try (injection E; intros; lia).
Qed.

(** ** Kinematic primitives *)

Lemma nearZero_true (v : Velocity float) (e : float) :
  nearZero v e = true <->
  SFltb (SFabs (vx_ v)) e = true /\ SFltb (SFabs (vy_ v)) e = true
  /\ SFltb (SFabs (va_ v)) e = true.
Proof.
  unfold nearZero; simpl.
  destruct (SFltb (SFabs (vx_ v)) e), (SFltb (SFabs (vy_ v)) e),
    (SFltb (SFabs (va_ v)) e); simpl; intuition congruence.
Qed.

(** C7. [L * c] is the triple of the products of [c] with the velocity, the
    acceleration and the jerk limit of [L]: all three are scaled by the
    same factor, the jerk limit included. *)
Theorem DynamicLimits_mul_scales_all (F : Type) (S : Scalar F)
    (v_max a_max j_max c : F) :
  DynamicLimits_mul (mkDynamicLimits v_max a_max j_max) c
  = mkDynamicLimits (fmul c v_max) (fmul c a_max) (fmul c j_max)
  /\ forall L : DynamicLimits F,
       max_vel_ (DynamicLimits_mul L c) = fmul c (max_vel_ L)
       /\ max_acc_ (DynamicLimits_mul L c) = fmul c (max_acc_ L)
       /\ max_jerk_ (DynamicLimits_mul L c) = fmul c (max_jerk_ L).
Proof.
  split; [reflexivity | intros [v a j]; repeat split].
Qed.

(** C9. A default-constructed [Point] is [Point(0,0,0)] and a
    default-constructed [Velocity] is [Velocity(0,0,0)]: every component is
    the float zero, they compare equal with [==], and the point and the
    velocity inside a [PVTPoint] that nothing has assigned are these
    zeros. *)
Theorem default_constructed_are_zero :
  let zero : float := of_int 0 in
  Point_ctor None None None = Point_ctor (Some zero) (Some zero) (Some zero)
  /\ Point_ctor (F := float) None None None
     = mkPoint (S754_zero false) (S754_zero false) (S754_zero false)
  /\ Point_eq (Point_ctor None None None)
              (Point_ctor (Some zero) (Some zero) (Some zero)) = true
  /\ Velocity_ctor None None None
     = Velocity_ctor (Some zero) (Some zero) (Some zero)
  /\ Velocity_ctor (F := float) None None None
     = mkVelocity (S754_zero false) (S754_zero false) (S754_zero false)
  /\ Velocity_eq (Velocity_ctor None None None)
                 (Velocity_ctor (Some zero) (Some zero) (Some zero)) = true
  /\ forall time : float,
       position_ (PVTPoint_default time) = Point_ctor (Some zero) (Some zero) (Some zero)
       /\ velocity_ (PVTPoint_default time)
          = Velocity_ctor (Some zero) (Some zero) (Some zero).
Proof.
  cbv zeta; repeat split; reflexivity.
Qed.

(** C10. [nearZero] is monotone in its tolerance: a velocity that is near
    zero for [eps1] is near zero for every [eps2] with [eps1 <= eps2]. *)
Theorem nearZero_monotone (v : Velocity float) (eps1 eps2 : float) :
  fleb eps1 eps2 = true ->
  nearZero v eps1 = true ->
  nearZero v eps2 = true.
Proof.
  simpl; intros Hle Hnz.
  apply nearZero_true in Hnz; destruct Hnz as (Hx & Hy & Ha).
  apply nearZero_true; repeat split;
    eapply SFltb_leb_trans; eassumption.
Qed.

Lemma nearZero_monotone_witness :
  nearZero (mkVelocity (float_of_int 1) (float_of_int (-2)) (S754_zero true))
           (float_of_int 4) = true.
Proof.
  apply (@nearZero_monotone _ (float_of_int 3) (float_of_int 4));
    vm_compute; reflexivity.
Defined.

(** ** The order of [float] is the order of the denoted values *)

Lemma digits2_pos_bounds (m : positive) :
  (2 ^ (Zpos (digits2_pos m) - 1) <= Zpos m < 2 ^ Zpos (digits2_pos m))%Z.
Proof.
  induction m as [p IH | p IH |]; simpl digits2_pos.
  - rewrite Pos2Z.inj_succ.
    replace (Z.succ (Zpos (digits2_pos p)) - 1)%Z
      with (Z.succ (Zpos (digits2_pos p) - 1))%Z by lia.
    rewrite !Z.pow_succ_r by lia. lia.
  - rewrite Pos2Z.inj_succ.
    replace (Z.succ (Zpos (digits2_pos p)) - 1)%Z
      with (Z.succ (Zpos (digits2_pos p) - 1))%Z by lia.
    rewrite !Z.pow_succ_r by lia. lia.
  - simpl. lia.
Qed.

Lemma bounded_canonical (m : positive) (e : Z) :
  bounded prec emax m e = true ->
  e = Z.max (Zpos (digits2_pos m) + e - 24) (-149).
Proof.
  unfold bounded, canonical_mantissa, fexp, emin, prec, emax.
  intro Hb; apply andb_prop in Hb; destruct Hb as [Hc _].
  apply Z.eqb_eq in Hc. symmetry. exact Hc.
Qed.

(** Of two canonical mantissas the one with the larger exponent is the
    larger number. *)
Lemma canonical_exponent_order (m1 m2 : positive) (e1 e2 : Z) :
  bounded prec emax m1 e1 = true ->
  bounded prec emax m2 e2 = true ->
  (e1 < e2)%Z ->
  (Zpos m1 < Zpos m2 * 2 ^ (e2 - e1))%Z.
Proof.
  intros H1 H2 Hlt.
  apply bounded_canonical in H1; apply bounded_canonical in H2.
  pose proof (digits2_pos_bounds m1) as [_ Hm1].
  pose proof (digits2_pos_bounds m2) as [Hm2 _].
  assert (Hd1 : (Zpos (digits2_pos m1) <= 24)%Z) by lia.
  assert (Hd2 : Zpos (digits2_pos m2) = 24%Z) by lia.
  rewrite Hd2 in Hm2.
  assert (Hp1 : (2 ^ Zpos (digits2_pos m1) <= 2 ^ 24)%Z)
    by (apply Z.pow_le_mono_r; lia).
  assert (Hp2 : (2 ^ 1 <= 2 ^ (e2 - e1))%Z)
    by (apply Z.pow_le_mono_r; lia).
  change (2 ^ (24 - 1))%Z with 8388608%Z in Hm2.
  change (2 ^ 24)%Z with 16777216%Z in Hp1.
  change (2 ^ 1)%Z with 2%Z in Hp2.
  nia.
Qed.

Lemma Qpow2_pos (e : Z) : 0 < (2 # 1) ^ e.
Proof. apply Qpower_0_lt; reflexivity. Qed.

Lemma scaled_value_lt (m1 m2 : positive) (e1 e2 : Z) :
  (e1 <= e2)%Z ->
  (Zpos m1 < Zpos m2 * 2 ^ (e2 - e1))%Z ->
  inject_Z (Zpos m1) * (2 # 1) ^ e1 < inject_Z (Zpos m2) * (2 # 1) ^ e2.
Proof.
  intros Hle Hlt.
  replace e2 with ((e2 - e1) + e1)%Z at 1 by lia.
  rewrite Qpower_plus by discriminate.
  change (2 # 1) with (inject_Z 2) at 2.
  rewrite <- Zpower_Qpower by lia.
  rewrite Qmult_assoc, <- inject_Z_mult.
  apply Qmult_lt_compat_r; [apply Qpow2_pos | ].
  rewrite <- Zlt_Qlt. exact Hlt.
Qed.

Lemma magnitude_pos (m : positive) (e : Z) : 0 < inject_Z (Zpos m) * (2 # 1) ^ e.
Proof.
  apply Qmult_lt_0_compat; [reflexivity | apply Qpow2_pos].
Qed.

Lemma negative_value (m : positive) (e : Z) :
  inject_Z (cond_Zopp true (Zpos m)) * (2 # 1) ^ e
  == - (inject_Z (Zpos m) * (2 # 1) ^ e).
Proof.
  change (inject_Z (cond_Zopp true (Zpos m))) with (- inject_Z (Zpos m)).
  ring.
Qed.

Lemma magnitude_lt_iff (m1 m2 : positive) (e1 e2 : Z) :
  bounded prec emax m1 e1 = true ->
  bounded prec emax m2 e2 = true ->
  inject_Z (Zpos m1) * (2 # 1) ^ e1 < inject_Z (Zpos m2) * (2 # 1) ^ e2
  <-> (e1 < e2)%Z \/ (e1 = e2 /\ (m1 < m2)%positive).
Proof.
  intros H1 H2.
  assert (Hup : forall a b ea eb,
             bounded prec emax a ea = true -> bounded prec emax b eb = true ->
             (ea < eb)%Z \/ (ea = eb /\ (a < b)%positive) ->
             inject_Z (Zpos a) * (2 # 1) ^ ea < inject_Z (Zpos b) * (2 # 1) ^ eb).
  { intros a b ea eb Ha Hb [Hlt | [-> Hlt]].
    - apply scaled_value_lt; [lia | ].
      apply canonical_exponent_order; assumption.
    - apply Qmult_lt_compat_r; [apply Qpow2_pos | ].
      rewrite <- Zlt_Qlt. lia. }
  split; [ | apply Hup; assumption].
  intro Hlt.
  destruct (Z.lt_trichotomy e1 e2) as [Hl | [He | Hg]]; [left; exact Hl | | ].
  - subst e2. right; split; [reflexivity | ].
    destruct (Pos.lt_total m1 m2) as [Hm | [Hm | Hm]]; [exact Hm | | ].
    + subst m2. exfalso. exact (Qlt_irrefl _ Hlt).
    + exfalso. apply (Qlt_irrefl (inject_Z (Zpos m1) * (2 # 1) ^ e1)).
      eapply Qlt_trans; [exact Hlt | ].
      apply Hup; [assumption | assumption | right; split; [reflexivity | exact Hm]].
  - exfalso. apply (Qlt_irrefl (inject_Z (Zpos m1) * (2 # 1) ^ e1)).
    eapply Qlt_trans; [exact Hlt | ].
    apply Hup; [assumption | assumption | left; lia].
Qed.

Lemma SFltb_finite_same_sign (s : bool) (m1 m2 : positive) (e1 e2 : Z) :
  SFltb (S754_finite s m1 e1) (S754_finite s m2 e2) = true
  <-> if s then (e2 < e1)%Z \/ (e2 = e1 /\ (m2 < m1)%positive)
      else (e1 < e2)%Z \/ (e1 = e2 /\ (m1 < m2)%positive).
Proof.
  unfold SFltb, SFcompare; destruct s; order_cases; simpl;
    split; intro E; try discriminate; try reflexivity; try lia.
Qed.

Lemma SFltb_xlt_zero_finite (sx sy : bool) (my : positive) (ey : Z) :
  SFltb (S754_zero sx) (S754_finite sy my ey) = true
  <-> xlt (F2X (S754_zero sx)) (F2X (S754_finite sy my ey)).
Proof.
  unfold F2X, xlt. pose proof (magnitude_pos my ey) as Py. destruct sy.
  - split; [discriminate | ]. intro E. exfalso.
    rewrite negative_value in E. lra.
  - split; [intros _; exact Py | reflexivity].
Qed.

Lemma SFltb_xlt_finite_zero (sx sy : bool) (mx : positive) (ex : Z) :
  SFltb (S754_finite sx mx ex) (S754_zero sy) = true
  <-> xlt (F2X (S754_finite sx mx ex)) (F2X (S754_zero sy)).
Proof.
  unfold F2X, xlt. pose proof (magnitude_pos mx ex) as Px. destruct sx.
  - split; [intros _ | reflexivity]. rewrite negative_value. lra.
  - split; [discriminate | ]. intro E. exfalso. simpl cond_Zopp in E. lra.
Qed.

Lemma SFltb_xlt_finite (sx sy : bool) (mx my : positive) (ex ey : Z) :
  bounded prec emax mx ex = true ->
  bounded prec emax my ey = true ->
  SFltb (S754_finite sx mx ex) (S754_finite sy my ey) = true
  <-> xlt (F2X (S754_finite sx mx ex)) (F2X (S754_finite sy my ey)).
Proof.
  intros Vx Vy. unfold F2X, xlt.
  pose proof (magnitude_pos mx ex) as Px.
  pose proof (magnitude_pos my ey) as Py.
  destruct sx, sy.
  - rewrite SFltb_finite_same_sign, !negative_value.
    rewrite <- (magnitude_lt_iff my mx ey ex Vy Vx). split; intro; lra.
  - rewrite negative_value. simpl cond_Zopp.
    split; [intros _; lra | reflexivity].
  - rewrite negative_value. simpl cond_Zopp.
    split; [discriminate | intro; lra].
  - rewrite SFltb_finite_same_sign. simpl cond_Zopp.
    rewrite <- (magnitude_lt_iff mx my ex ey Vx Vy). reflexivity.
Qed.

(** On floats the hardware can hold, [<] is the strict order of the
    denoted values. *)
Lemma SFltb_xlt (x y : float) :
  valid x -> valid y -> (SFltb x y = true <-> xlt (F2X x) (F2X y)).
Proof.
  unfold valid; intros Vx Vy.
  destruct x, y; simpl in Vx, Vy;
    try (apply SFltb_xlt_zero_finite);
    try (apply SFltb_xlt_finite_zero);
    try (apply SFltb_xlt_finite; assumption);
    repeat match goal with s : bool |- _ => destruct s end;
    simpl; split; intro E; try discriminate; try reflexivity;
    try contradiction; try (destruct E; discriminate);
    try (split; reflexivity);
    try (exfalso; exact (Qlt_irrefl _ E)).
Qed.

Lemma Qabs_value (s : bool) (m : positive) (e : Z) :
  Qabs (inject_Z (cond_Zopp s (Zpos m)) * (2 # 1) ^ e)
  == inject_Z (Zpos m) * (2 # 1) ^ e.
Proof.
  pose proof (magnitude_pos m e) as P.
  destruct s.
  - rewrite negative_value, Qabs_opp. apply Qabs_pos. lra.
  - apply Qabs_pos. simpl cond_Zopp. lra.
Qed.

(** [fabs] denotes the absolute value. *)
Lemma SFabs_xabs (x e : float) :
  xlt (F2X (SFabs x)) (F2X e) <-> xlt (xabs (F2X x)) (F2X e).
Proof.
  destruct x as [s | s | | s m ex]; try reflexivity.
  simpl SFabs. unfold F2X at 1 3, xabs.
  destruct (F2X e) as [ | sy | q]; try reflexivity.
  unfold xlt. rewrite Qabs_value. reflexivity.
Qed.

Lemma valid_SFabs (x : float) : valid x -> valid (SFabs x).
Proof. destruct x; exact (fun V => V). Qed.

Lemma SFltb_abs_magnitude_below (x e : float) :
  valid x -> valid e ->
  (SFltb (SFabs x) e = true <-> magnitude_below x e).
Proof.
  intros Vx Ve. unfold magnitude_below.
  rewrite <- SFabs_xabs. apply SFltb_xlt; [apply valid_SFabs; exact Vx | exact Ve].
Qed.

(** C6. [nearZero(eps)] returns true exactly when the magnitude of each of
    the three components is strictly below [eps]; magnitudes and the order
    are those of the numbers the floats denote (a NaN is below nothing),
    for every tolerance, the positive ones included. *)
Theorem nearZero_iff_magnitudes_below (v : Velocity float) (e : float) :
  valid_velocity v -> valid e ->
  (nearZero v e = true
   <-> magnitude_below (vx_ v) e /\ magnitude_below (vy_ v) e
       /\ magnitude_below (va_ v) e).
Proof.
  intros (Vx & Vy & Va) Ve.
  rewrite nearZero_true.
  rewrite (SFltb_abs_magnitude_below Vx Ve), (SFltb_abs_magnitude_below Vy Ve),
    (SFltb_abs_magnitude_below Va Ve).
  reflexivity.
Qed.

Lemma nearZero_iff_magnitudes_below_witness :
  let v := mkVelocity (float_of_int 1) (float_of_int (-2)) (S754_zero true) in
  nearZero v (float_of_int 3) = true
  <-> magnitude_below (vx_ v) (float_of_int 3)
      /\ magnitude_below (vy_ v) (float_of_int 3)
      /\ magnitude_below (va_ v) (float_of_int 3).
Proof.
  apply nearZero_iff_magnitudes_below;
    [repeat split; vm_compute; reflexivity | vm_compute; reflexivity].
Defined.

(** C8 as stated fails: [+0.0] and [-0.0] differ in their sign bit and
    compare equal, and a NaN component makes a point differ from itself. *)
Lemma Point_eq_not_bitwise :
  ~ (forall p q : Point float,
       Point_eq p q = true
       <-> x_ p = x_ q /\ y_ p = y_ q /\ a_ p = a_ q).
Proof.
  intro Hall.
  pose (p := mkPoint (S754_zero false) (S754_zero false) (S754_zero false)).
  pose (q := mkPoint (S754_zero true) (S754_zero false) (S754_zero false)).
  assert (E : Point_eq p q = true) by reflexivity.
  apply Hall in E. destruct E as [E _]. discriminate E.
Qed.

(** C8, amended. [operator==] holds exactly when each pair of components is
    equal as IEEE values: neither is a NaN, and they are the same float or
    two zeros (of any signs).  No tolerance is applied. *)
Theorem Point_eq_iff_ieee_eq (p q : Point float) :
  Point_eq p q = true
  <-> ieee_eq (x_ p) (x_ q) /\ ieee_eq (y_ p) (y_ q) /\ ieee_eq (a_ p) (a_ q).
Proof.
  unfold Point_eq; simpl.
  rewrite !andb_true_iff, !SFeqb_ieee_eq. tauto.
Qed.


(** ** The evaluator at the ends of a profile *)

Section Evaluator.
Context {F : Type} `{Scalar F}.



End Evaluator.

(** ** Switch-point times *)

Section SwitchTimes.
Context {F : Type} `{Scalar F}.
Variable powf : F -> F -> F.

(** [ok] singles out the values the arithmetic can produce; the laws are
    those of adding a duration that is not negative to a time that is not
    negative. *)
Variable ok : F -> Prop.
Hypothesis ok_zero : ok f0.
Hypothesis zero_le_zero : fleb f0 f0 = true.
Hypothesis ok_div : forall x y : F, ok (fdiv x y).
Hypothesis ok_sub : forall x y : F, ok x -> ok y -> ok (fsub x y).
Hypothesis add_duration : forall t d : F,
  ok t -> ok d -> fleb f0 t = true -> fleb f0 d = true ->
  fleb t (fadd t d) = true /\ fleb f0 (fadd t d) = true /\ ok (fadd t d).

Lemma fill_switch_points_sorted (durations : list F) :
  forall (params : SCurveParameters F) (region : nat),
    length (switch_points_ params) = S region ->
    sorted_times (switch_points_ params) ->
    good_duration ok (t_ (switch_point params region)) ->
    Forall (good_duration ok) durations ->
    let r := fill_switch_points params region durations in
    length (switch_points_ r) = (S region + length durations)%nat
    /\ sorted_times (switch_points_ r)
    /\ switch_point r 0 = switch_point params 0.
Proof.
  induction durations as [ | dt rest IH]; intros params region Hlen Hs Hlast Hd.
  - simpl. rewrite Nat.add_0_r. repeat split; assumption.
  - inversion Hd as [ | ? ? [Hok Hnn] Hrest]; subst.
    destruct Hlast as [Hokt Hnnt].
    destruct (add_duration Hokt Hok Hnnt Hnn) as (Hle & Hnn' & Hok').
    simpl fill_switch_points.
    set (sp := next_switch_point params region dt).
    set (params' := set_switch_points params (switch_points_ params ++ [sp])).
    assert (Hlen' : length (switch_points_ params') = S (S region)).
    { subst params'; simpl. rewrite length_app, Hlen. simpl. lia. }
    assert (Hnth : switch_point params' (S region) = sp).
    { subst params'; unfold switch_point; simpl.
      rewrite app_nth2 by lia. rewrite Hlen, Nat.sub_diag. reflexivity. }
    assert (Hold : forall i, (i <= region)%nat ->
                     switch_point params' i = switch_point params i).
    { intros i Hi. subst params'; unfold switch_point; simpl.
      apply app_nth1. lia. }
    assert (Hs' : sorted_times (switch_points_ params')).
    { intros i Hi. rewrite Hlen' in Hi.
      fold (switch_point params' i). fold (switch_point params' (S i)).
      destruct (Nat.eq_dec i region) as [-> | Hne].
      - rewrite Hnth, Hold by lia. exact Hle.
      - rewrite !Hold by lia. apply Hs. lia. }
    destruct (IH params' (S region) Hlen' Hs') as (Hl & Hsr & H0); [ | exact Hrest | ].
    { rewrite Hnth. split; assumption. }
    repeat split.
    + rewrite Hl. simpl. lia.
    + exact Hsr.
    + rewrite H0. apply Hold. lia.
Qed.

Lemma populateSwitchTimeParameters_sorted (params : SCurveParameters F)
    (dt_j dt_a dt_v : F) :
  good_duration ok dt_j -> good_duration ok dt_a -> good_duration ok dt_v ->
  let r := populateSwitchTimeParameters params dt_j dt_a dt_v in
  monotone_times r /\ switch_point r 0 = origin_switch_point.
Proof.
  intros Hj Ha Hv r.
  destruct (@fill_switch_points_sorted [dt_j; dt_a; dt_j; dt_v; dt_j; dt_a; dt_j]
              (set_switch_points params [origin_switch_point]) 0%nat)
    as (Hl & Hs & H0).
  - reflexivity.
  - intros i Hi. simpl in Hi. lia.
  - split; [exact ok_zero | exact zero_le_zero].
  - repeat (apply Forall_cons; [assumption | ]); apply Forall_nil.
  - fold r in Hl, Hs, H0. split.
    + intros i Hi. apply Hs. rewrite Hl. simpl. lia.
    + exact H0.
Qed.

Lemma solve_with_limits_sorted (d V A J : F) (params : SCurveParameters F) :
  solve_with_limits d V A J = Some params ->
  monotone_times params /\ switch_point params 0 = origin_switch_point.
Proof.
  unfold solve_with_limits.
  destruct (fleb f0 (fdiv A J)) eqn:Ej; [ | discriminate].
  destruct (fleb f0 (fsub (fdiv V A) (fdiv A J))) eqn:Ea; [ | discriminate].
  destruct (fleb f0 (fsub (fsub (fdiv d V) (fdiv V A)) (fdiv A J))) eqn:Ev;
    [ | discriminate].
  simpl andb.
  match goal with |- (if ?c then _ else _) = _ -> _ => destruct c end;
    [ | discriminate].
  intro E; inversion E; subst.
  apply populateSwitchTimeParameters_sorted; split;
    auto using ok_div, ok_sub.
Qed.

Lemma relax_limits_sorted (solver : SolverParameters F) (d : F)
    (limits : DynamicLimits F) (fuel : nat) :
  forall (k : Z) (params : SCurveParameters F),
    relax_limits powf solver d limits fuel k = Some params ->
    monotone_times params /\ switch_point params 0 = origin_switch_point.
Proof.
  induction fuel as [ | fuel IH]; intros k params; simpl; [discriminate | ].
  match goal with
  | |- match ?s with _ => _ end = _ -> _ => destruct s as [p | ] eqn:E
  end.
  - intro E'; inversion E'; subst. exact (solve_with_limits_sorted _ _ _ _ E).
  - apply IH.
Qed.

Lemma generateSCurve_sorted (dist : F) (limits : DynamicLimits F)
    (solver : SolverParameters F) (params : SCurveParameters F) :
  generateSCurve powf dist limits solver = Some params ->
  monotone_times params /\ switch_point params 0 = origin_switch_point.
Proof.
  unfold generateSCurve.
  match goal with
  | |- match ?s with _ => _ end = _ -> _ => destruct s as [p | ] eqn:E
  end.
  - intro E'; inversion E'; subst. exact (solve_with_limits_sorted _ _ _ _ E).
  - apply relax_limits_sorted.
Qed.
End SwitchTimes.

(** ** Rounding to binary32 *)

Lemma fexp_binary32 (z : Z) : fexp prec emax z = Z.max (z - 24) (-149).
Proof. reflexivity. Qed.

Lemma fexp_monotone (a b : Z) : (a <= b)%Z -> (fexp prec emax a <= fexp prec emax b)%Z.
Proof. rewrite !fexp_binary32. lia. Qed.

Lemma Zdigits2_log2 (m : Z) : (0 < m)%Z -> Zdigits2 m = (Z.log2 m + 1)%Z.
Proof.
  destruct m as [ | p | p]; try lia. intros _. simpl Zdigits2.
  pose proof (digits2_pos_bounds p) as Hb.
  symmetry. apply Z.add_move_r. apply Z.log2_unique; [lia | ].
  replace (Z.succ (Z.pos (digits2_pos p) - 1))%Z with (Z.pos (digits2_pos p)) by lia.
  exact Hb.
Qed.

Lemma Zdigits2_nonneg (m : Z) : (0 <= Zdigits2 m)%Z.
Proof. destruct m; simpl; lia. Qed.

Lemma Zdigits2_monotone (a b : Z) :
  (0 <= a <= b)%Z -> (Zdigits2 a <= Zdigits2 b)%Z.
Proof.
  intros [Ha Hab].
  destruct (Z.eq_dec a 0) as [-> | Hne]; [apply Zdigits2_nonneg | ].
  rewrite !Zdigits2_log2 by lia.
  pose proof (Z.log2_le_mono a b Hab). lia.
Qed.

(** Digits of a quotient by a power of two. *)
Lemma Zdigits2_div_pow2 (m n : Z) :
  (0 <= n)%Z -> (0 < m / 2 ^ n)%Z -> Zdigits2 (m / 2 ^ n) = (Zdigits2 m - n)%Z.
Proof.
  intros Hn Hq.
  assert (Hm : (0 < m)%Z).
  { destruct (Z.lt_trichotomy m 0) as [Hneg | [-> | Hpos]]; [ | | exact Hpos].
    - exfalso.
      assert (0 < 2 ^ n)%Z by (apply Z.pow_pos_nonneg; lia).
      assert ((m / 2 ^ n < 0)%Z) by (apply Z.div_lt_upper_bound; lia).
      lia.
    - rewrite Z.div_0_l in Hq by (apply Z.pow_nonzero; lia). lia. }
  rewrite !Zdigits2_log2 by lia.
  rewrite <- Z.shiftr_div_pow2 in * by lia.
  rewrite Z.log2_shiftr by lia.
  assert (Hlog : (n <= Z.log2 m)%Z).
  { destruct (Z.le_gt_cases n (Z.log2 m)) as [Hle | Hgt]; [exact Hle | exfalso].
    rewrite Z.shiftr_eq_0 in Hq by lia. lia. }
  lia.
Qed.

(** A quotient by a power of two that vanishes: too few digits. *)
Lemma Zdigits2_small (m n : Z) :
  (0 <= m)%Z -> (0 <= n)%Z -> (m / 2 ^ n = 0)%Z -> (Zdigits2 m <= n)%Z.
Proof.
  intros Hm Hn Hq.
  destruct (Z.eq_dec m 0) as [-> | Hne]; [simpl; lia | ].
  rewrite Zdigits2_log2 by lia.
  apply Z.div_small_iff in Hq; [ | apply Z.pow_nonzero; lia].
  destruct Hq as [[_ Hlt] | [Hlt Hle]].
  - apply Z.log2_lt_pow2 in Hlt; lia.
  - assert (0 < 2 ^ n)%Z by (apply Z.pow_pos_nonneg; lia). lia.
Qed.

(** The top [24] digits of a number with more digits are at least
    [2^23]. *)
Lemma top_digits_large (m k : Z) :
  (0 < m)%Z -> (0 <= k)%Z -> (k + 24 <= Zdigits2 m)%Z -> (8388608 <= m / 2 ^ k)%Z.
Proof.
  intros Hm Hk Hd. rewrite Zdigits2_log2 in Hd by lia.
  assert (Hp : (2 ^ (k + 23) <= m)%Z) by (apply Z.log2_le_pow2; lia).
  rewrite Z.pow_add_r in Hp by lia.
  change (2 ^ 23)%Z with 8388608%Z in Hp.
  apply Z.div_le_lower_bound; [apply Z.pow_pos_nonneg; lia | lia].
Qed.

Lemma shr_1_mantissa (mrs : shr_record) :
  (0 <= shr_m mrs)%Z ->
  shr_m (shr_1 mrs) = (shr_m mrs / 2)%Z /\ (0 <= shr_m (shr_1 mrs))%Z.
Proof.
  destruct mrs as [m r s]; simpl shr_m at 1; intro Hm.
  rewrite <- Z.div2_div.
  destruct m as [ | [p | p | ] | p]; simpl; try lia.
Qed.

Lemma iter_shr_1_mantissa (n : positive) :
  forall mrs : shr_record,
    (0 <= shr_m mrs)%Z ->
    shr_m (iter_pos shr_1 n mrs) = (shr_m mrs / 2 ^ Zpos n)%Z
    /\ (0 <= shr_m (iter_pos shr_1 n mrs))%Z.
Proof.
  induction n as [n IH | n IH | ]; intros mrs Hm; simpl iter_pos.
  - destruct (@shr_1_mantissa mrs Hm) as [E1 H1].
    destruct (IH _ H1) as [E2 H2]. destruct (IH _ H2) as [E3 H3].
    split; [ | exact H3].
    rewrite E3, E2, E1.
    assert (Hp : (0 < 2 ^ Z.pos n)%Z) by (apply Z.pow_pos_nonneg; lia).
    rewrite !Z.div_div by lia.
    f_equal.
    replace (Z.pos n~1) with (1 + Z.pos n + Z.pos n)%Z by lia.
    rewrite !Z.pow_add_r by lia. change (2 ^ 1)%Z with 2%Z. lia.
  - destruct (IH _ Hm) as [E2 H2]. destruct (IH _ H2) as [E3 H3].
    split; [ | exact H3].
    rewrite E3, E2.
    assert (Hp : (0 < 2 ^ Z.pos n)%Z) by (apply Z.pow_pos_nonneg; lia).
    rewrite !Z.div_div by lia.
    f_equal.
    replace (Z.pos n~0) with (Z.pos n + Z.pos n)%Z by lia.
    rewrite Z.pow_add_r by lia. reflexivity.
  - apply shr_1_mantissa. exact Hm.
Qed.

Lemma shr_record_of_loc_mantissa (m : Z) (l : location) :
  shr_m (shr_record_of_loc m l) = m.
Proof. destruct l as [ | []]; reflexivity. Qed.

(** One truncation step: the exponent becomes the canonical one, the
    mantissa is divided by the power of two in between. *)
Lemma shr_fexp_stage (m e : Z) (l : location) (mrs : shr_record) (e' : Z) :
  (0 <= m)%Z ->
  (e <= fexp prec emax (Zdigits2 m + e))%Z ->
  shr_fexp prec emax m e l = (mrs, e') ->
  e' = fexp prec emax (Zdigits2 m + e)
  /\ shr_m mrs = (m / 2 ^ (e' - e))%Z.
Proof.
  intros Hm He. unfold shr_fexp, shr.
  destruct (fexp prec emax (Zdigits2 m + e) - e)%Z as [ | n | n] eqn:En;
    intro E; inversion E; subst; clear E.
  - split; [lia | ].
    rewrite shr_record_of_loc_mantissa.
    replace (e' - e')%Z with 0%Z by lia. rewrite Z.div_1_r. reflexivity.
  - split; [lia | ].
    destruct (@iter_shr_1_mantissa n (shr_record_of_loc m l)) as [E1 _].
    + rewrite shr_record_of_loc_mantissa. exact Hm.
    + rewrite E1, shr_record_of_loc_mantissa.
      f_equal. f_equal. lia.
  - lia.
Qed.

(** After a truncation step the mantissa is canonical for the new
    exponent, or it vanished at the smallest exponent. *)
Lemma truncated_canonical (m e : Z) :
  (0 <= m)%Z ->
  (e <= fexp prec emax (Zdigits2 m + e))%Z ->
  let E := fexp prec emax (Zdigits2 m + e) in
  let m' := (m / 2 ^ (E - e))%Z in
  (0 <= m')%Z
  /\ ((0 < m')%Z -> fexp prec emax (Zdigits2 m' + E) = E)
  /\ (m' = 0%Z -> E = (-149)%Z).
Proof.
  intros Hm He E m'.
  assert (Hpow : (0 < 2 ^ (E - e))%Z) by (apply Z.pow_pos_nonneg; lia).
  split; [apply Z.div_pos; lia | ]. split.
  - intro Hpos. subst m'. rewrite Zdigits2_div_pow2 by lia.
    replace (Zdigits2 m - (E - e) + E)%Z with (Zdigits2 m + e)%Z by lia.
    reflexivity.
  - intro Hz. apply Zdigits2_small in Hz; [ | lia | lia].
    subst E. rewrite fexp_binary32 in *. lia.
Qed.

Lemma round_nearest_even_bounds (m : Z) (l : location) :
  (m <= round_nearest_even m l <= m + 1)%Z.
Proof.
  destruct l as [ | []]; simpl; try lia.
  destruct (Z.even m); lia.
Qed.

(** Rounding a mantissa that has digits to spare gives a float the
    hardware can hold. *)
Lemma binary_round_aux_valid (s : bool) (m e : Z) (l : location) :
  (0 <= m)%Z ->
  (e <= fexp prec emax (Zdigits2 m + e))%Z ->
  valid (binary_round_aux prec emax s m e l).
Proof.
  intros Hm He. unfold valid, binary_round_aux.
  destruct (shr_fexp prec emax m e l) as [mrs' e'] eqn:S1.
  destruct (@shr_fexp_stage _ _ _ _ _ Hm He S1) as [Ee' Em'].
  destruct (@truncated_canonical _ _ Hm He) as (Hnn & Hcan & Hzero).
  rewrite <- Ee', <- Em' in Hnn, Hcan, Hzero.
  set (m1 := round_nearest_even (shr_m mrs') (loc_of_shr_record mrs')).
  pose proof (round_nearest_even_bounds (shr_m mrs') (loc_of_shr_record mrs')) as Hr.
  fold m1 in Hr.
  assert (Hm1 : (0 <= m1)%Z) by lia.
  assert (He1 : (e' <= fexp prec emax (Zdigits2 m1 + e'))%Z).
  { destruct (Z.eq_dec (shr_m mrs') 0) as [Hz | Hnz].
    - rewrite (Hzero Hz), fexp_binary32. lia.
    - rewrite <- (Hcan ltac:(lia)) at 1. apply fexp_monotone.
      pose proof (@Zdigits2_monotone (shr_m mrs') m1 ltac:(lia)). lia. }
  destruct (shr_fexp prec emax m1 e' loc_Exact) as [mrs'' e''] eqn:S2.
  destruct (@shr_fexp_stage _ _ _ _ _ Hm1 He1 S2) as [Ee'' Em''].
  destruct (@truncated_canonical _ _ Hm1 He1) as (_ & Hcan2 & _).
  rewrite <- Ee'', <- Em'' in Hcan2.
  destruct (shr_m mrs'') as [ | p | p] eqn:Ep; [reflexivity | | reflexivity].
  destruct (Z.leb e'' (emax - prec)) eqn:Hle; [ | reflexivity].
  simpl. unfold bounded, canonical_mantissa.
  rewrite Hle, andb_true_r. apply Z.eqb_eq.
  apply (Hcan2 ltac:(lia)).
Qed.

Lemma iter_xO_value (m d : positive) :
  Zpos (Pos.iter xO m d) = (Zpos m * 2 ^ Zpos d)%Z.
Proof.
  induction d as [ | d IH] using Pos.peano_ind.
  - simpl. lia.
  - rewrite Pos.iter_succ, Pos2Z.inj_xO, IH, Pos2Z.inj_succ, Z.pow_succ_r by lia.
    lia.
Qed.

(** Alignment to a smaller exponent keeps the value. *)
Lemma shl_align_value (mx : positive) (ex ex' : Z) :
  let m := fst (shl_align mx ex ex') in
  let e := snd (shl_align mx ex ex') in
  Zpos m = (Zpos mx * 2 ^ (ex - e))%Z /\ e = Z.min ex ex'.
Proof.
  unfold shl_align.
  destruct (ex' - ex)%Z as [ | d | d] eqn:Ed; cbn [fst snd].
  - split; [ | lia]. rewrite Z.sub_diag, Z.pow_0_r, Z.mul_1_r. reflexivity.
  - split; [ | lia]. rewrite Z.sub_diag, Z.pow_0_r, Z.mul_1_r. reflexivity.
  - split; [ | lia]. rewrite iter_xO_value. f_equal. f_equal. lia.
Qed.

Lemma Zdigits2_mul_pow2 (m : positive) (k : Z) :
  (0 <= k)%Z -> Zdigits2 (Zpos m * 2 ^ k) = (Zdigits2 (Zpos m) + k)%Z.
Proof.
  intro Hk.
  assert (0 < 2 ^ k)%Z by (apply Z.pow_pos_nonneg; lia).
  rewrite !Zdigits2_log2 by lia.
  rewrite Z.log2_mul_pow2 by lia. lia.
Qed.

(** [binary_round] always gives a float the hardware can hold. *)
Lemma binary_round_valid (s : bool) (mx : positive) (ex : Z) :
  valid (binary_round prec emax s mx ex).
Proof.
  unfold binary_round.
  pose proof (shl_align_value mx ex (fexp prec emax (Zpos (digits2_pos mx) + ex)))
    as [Hm He].
  destruct (shl_align mx ex (fexp prec emax (Zpos (digits2_pos mx) + ex)))
    as [mz ez]; cbn [fst snd] in Hm, He.
  apply binary_round_aux_valid; [lia | ].
  rewrite Hm, Zdigits2_mul_pow2 by lia.
  change (Zdigits2 (Zpos mx)) with (Zpos (digits2_pos mx)).
  replace (Zpos (digits2_pos mx) + (ex - ez) + ez)%Z
    with (Zpos (digits2_pos mx) + ex)%Z by lia.
  lia.
Qed.

Lemma binary_normalize_valid (m e : Z) (szero : bool) :
  valid (binary_normalize prec emax m e szero).
Proof.
  destruct m; simpl; [reflexivity | apply binary_round_valid ..].
Qed.

Lemma SFadd_valid (x y : float) : valid x -> valid y -> valid (SFadd prec emax x y).
Proof.
  intros Vx Vy.
  destruct x as [sx | sx | | sx mx ex], y as [sy | sy | | sy my ey];
    try exact Vx; try exact Vy; try reflexivity;
    try (destruct sx, sy; reflexivity).
  apply binary_normalize_valid.
Qed.

Lemma SFsub_valid (x y : float) : valid x -> valid y -> valid (SFsub prec emax x y).
Proof.
  intros Vx Vy.
  destruct x as [sx | sx | | sx mx ex], y as [sy | sy | | sy my ey];
    try exact Vx; try exact Vy; try reflexivity;
    try (destruct sx, sy; reflexivity).
  apply binary_normalize_valid.
Qed.

(** The quotient computed by the division has digits to spare. *)
Lemma SFdiv_core_binary_digits (mx my : positive) (e1 e2 : Z) :
  let '(q, e', _) := SFdiv_core_binary prec emax (Zpos mx) e1 (Zpos my) e2 in
  (0 <= q)%Z /\ (e' <= fexp prec emax (Zdigits2 q + e'))%Z.
Proof.
  unfold SFdiv_core_binary.
  set (d1 := Zdigits2 (Zpos mx)). set (d2 := Zdigits2 (Zpos my)).
  set (e' := Z.min (fexp prec emax (d1 + e1 - (d2 + e2))) (e1 - e2)).
  set (s := (e1 - e2 - e')%Z).
  set (m' := match s with
             | Z.pos _ => Z.shiftl (Zpos mx) s
             | 0%Z => Zpos mx
             | Z.neg _ => 0%Z
             end).
  assert (Hs : (0 <= s)%Z) by (subst s e'; lia).
  assert (Hm' : m' = (Zpos mx * 2 ^ s)%Z).
  { subst m'. destruct s as [ | p | p] eqn:Es; [ | | lia].
    - rewrite Z.pow_0_r, Z.mul_1_r. reflexivity.
    - rewrite Z.shiftl_mul_pow2 by lia. reflexivity. }
  destruct (Z.div_eucl m' (Zpos my)) as [q r] eqn:Ediv.
  assert (Hq : q = (m' / Zpos my)%Z) by (unfold Z.div; rewrite Ediv; reflexivity).
  clearbody m'. subst m'.
  assert (Hp : (0 < 2 ^ s)%Z) by (apply Z.pow_pos_nonneg; lia).
  assert (Hq0 : (0 <= q)%Z) by (subst q; apply Z.div_pos; lia).
  split; [exact Hq0 | ].
  pose proof (digits2_pos_bounds mx) as [Hx1 _].
  pose proof (digits2_pos_bounds my) as [_ Hy2].
  fold (Zdigits2 (Zpos mx)) in Hx1. fold (Zdigits2 (Zpos my)) in Hy2.
  fold d1 in Hx1. fold d2 in Hy2.
  assert (Hd1 : (1 <= d1)%Z) by (subst d1; simpl; lia).
  assert (Hd2 : (1 <= d2)%Z) by (subst d2; simpl; lia).
  destruct (Z.le_gt_cases 0 (s + d1 - d2 - 1)) as [Hk | Hk].
  - (* enough digits in the quotient *)
    set (k := (s + d1 - d2 - 1)%Z) in *.
    assert (Hlow : (2 ^ k <= q)%Z).
    { subst q. apply Z.div_le_lower_bound; [lia | ].
      assert (E1 : (2 ^ (d1 - 1) * 2 ^ s = 2 ^ d2 * 2 ^ k)%Z).
      { rewrite <- !Z.pow_add_r by lia. f_equal. subst k. lia. }
      assert (0 < 2 ^ k)%Z by (apply Z.pow_pos_nonneg; lia).
      nia. }
    assert (Hqpos : (0 < q)%Z).
    { assert (0 < 2 ^ k)%Z by (apply Z.pow_pos_nonneg; lia). lia. }
    assert (Hdq : (k + 1 <= Zdigits2 q)%Z).
    { rewrite Zdigits2_log2 by lia.
      apply Z.log2_le_pow2 in Hlow; lia. }
    assert (Hmono : (fexp prec emax (d1 + e1 - (d2 + e2))
                     <= fexp prec emax (Zdigits2 q + e'))%Z).
    { apply fexp_monotone. subst k s. lia. }
    subst e'. lia.
  - (* the quotient may vanish: the exponent is the smallest one *)
    assert (He' : (e' <= -149)%Z).
    { subst s e'. rewrite fexp_binary32 in *. lia. }
    rewrite fexp_binary32. lia.
Qed.

(** A quotient is always a float the hardware can hold. *)
Lemma SFdiv_valid (x y : float) : valid (SFdiv prec emax x y).
Proof.
  destruct x as [sx | sx | | sx mx ex], y as [sy | sy | | sy my ey];
    try reflexivity.
  unfold SFdiv.
  pose proof (SFdiv_core_binary_digits mx my ex ey) as Hd.
  destruct (SFdiv_core_binary prec emax (Zpos mx) ex (Zpos my) ey) as [[q e'] l].
  destruct Hd as [Hq He]. apply binary_round_aux_valid; assumption.
Qed.

Lemma SFleb_finite_nonneg (m1 m2 : positive) (e1 e2 : Z) :
  (e1 < e2)%Z \/ (e1 = e2 /\ (m1 <= m2)%positive) ->
  SFleb (S754_finite false m1 e1) (S754_finite false m2 e2) = true.
Proof.
  unfold SFleb, SFcompare. intros [Hlt | [-> Hle]].
  - rewrite (proj2 (Z.compare_lt_iff e1 e2) Hlt). reflexivity.
  - rewrite Z.compare_refl.
    change (Pos.compare_cont Eq m1 m2) with (Pos.compare m1 m2).
    destruct (Pos.compare_spec m1 m2); try reflexivity. lia.
Qed.

(** Rounding a number that is at least a representable positive [x] gives
    at least [x]. *)
Lemma binary_round_above (M : positive) (ez : Z) (mx : positive) (ex : Z) :
  bounded prec emax mx ex = true ->
  (ez <= ex)%Z ->
  (Zpos mx * 2 ^ (ex - ez) <= Zpos M)%Z ->
  SFleb (S754_finite false mx ex) (binary_round prec emax false M ez) = true
  /\ SFleb (S754_zero false) (binary_round prec emax false M ez) = true.
Proof.
  intros Hb Hez HM.
  pose proof (bounded_canonical _ _ Hb) as Hcan.
  assert (Hpow : (0 < 2 ^ (ex - ez))%Z) by (apply Z.pow_pos_nonneg; lia).
  (* the canonical exponent of the sum is not below the one of x *)
  assert (Hdig : (Zdigits2 (Zpos mx) + (ex - ez) <= Zdigits2 (Zpos M))%Z).
  { rewrite <- Zdigits2_mul_pow2 by lia. apply Zdigits2_monotone. lia. }
  change (Zdigits2 (Zpos mx)) with (Zpos (digits2_pos mx)) in Hdig.
  set (E0 := fexp prec emax (Zdigits2 (Zpos M) + ez)).
  assert (HE0 : (ex <= E0)%Z).
  { subst E0. rewrite fexp_binary32. lia. }
  unfold binary_round.
  change (Zpos (digits2_pos M)) with (Zdigits2 (Zpos M)). fold E0.
  assert (Hal : shl_align M ez E0 = (M, ez)).
  { unfold shl_align. destruct (E0 - ez)%Z eqn:Ed; try reflexivity. lia. }
  rewrite Hal.
  assert (HM0 : (0 <= Zpos M)%Z) by lia.
  assert (Hpre : (ez <= fexp prec emax (Zdigits2 (Zpos M) + ez))%Z) by (fold E0; lia).
  unfold binary_round_aux.
  destruct (shr_fexp prec emax (Zpos M) ez loc_Exact) as [mrs' e'] eqn:S1.
  destruct (@shr_fexp_stage _ _ _ _ _ HM0 Hpre S1) as [Ee' Em'].
  fold E0 in Ee'. subst e'.
  destruct (@truncated_canonical _ _ HM0 Hpre) as (Hnn & Hcan1 & Hzero).
  fold E0 in Hnn, Hcan1, Hzero. rewrite <- Em' in Hnn, Hcan1, Hzero.
  (* the truncated mantissa is positive and not below the one of x *)
  assert (Hm' : (0 < shr_m mrs')%Z
                /\ (E0 = ex -> Zpos mx <= shr_m mrs')%Z).
  { split.
    - destruct (Z.eq_dec E0 ex) as [He | He].
      + rewrite Em', He.
        assert (Zpos mx <= Zpos M / 2 ^ (ex - ez))%Z
          by (apply Z.div_le_lower_bound; lia).
        lia.
      + rewrite Em'.
        assert (8388608 <= Zpos M / 2 ^ (E0 - ez))%Z.
        { apply top_digits_large; try lia.
          subst E0. rewrite fexp_binary32 in *. lia. }
        lia.
    - intro He. rewrite Em', He. apply Z.div_le_lower_bound; lia. }
  destruct Hm' as [Hpos' Hge'].
  set (m1 := round_nearest_even (shr_m mrs') (loc_of_shr_record mrs')).
  pose proof (round_nearest_even_bounds (shr_m mrs') (loc_of_shr_record mrs')) as Hr.
  fold m1 in Hr.
  assert (Hm1 : (0 <= m1)%Z) by lia.
  assert (He1 : (E0 <= fexp prec emax (Zdigits2 m1 + E0))%Z).
  { rewrite <- (Hcan1 Hpos') at 1. apply fexp_monotone.
    pose proof (@Zdigits2_monotone (shr_m mrs') m1 ltac:(lia)). lia. }
  destruct (shr_fexp prec emax m1 E0 loc_Exact) as [mrs'' e''] eqn:S2.
  destruct (@shr_fexp_stage _ _ _ _ _ Hm1 He1 S2) as [Ee'' Em''].
  (* the final mantissa is positive and ordered after x *)
  assert (Hfin : (0 < shr_m mrs'')%Z
                 /\ ((ex < e'')%Z \/ (ex = e'' /\ (Zpos mx <= shr_m mrs'')%Z))).
  { destruct (Z.eq_dec e'' E0) as [Hsame | Hshift].
    - rewrite Em'', Hsame, Z.sub_diag, Z.pow_0_r, Z.div_1_r.
      split; [lia | ].
      destruct (Z.eq_dec E0 ex) as [He | He]; [right | left]; lia.
    - assert (Hlarge : (8388608 <= m1 / 2 ^ (e'' - E0))%Z).
      { apply top_digits_large; try lia.
        rewrite Ee'', fexp_binary32 in *. lia. }
      rewrite Em''. split; [lia | left; lia]. }
  destruct Hfin as [Hpos2 Hord].
  destruct (shr_m mrs'') as [ | p | p] eqn:Ep; try lia.
  destruct (Z.leb e'' (emax - prec)); [ | split; reflexivity].
  split; [ | reflexivity].
  apply SFleb_finite_nonneg. destruct Hord as [Hlt | [-> Hle]]; [left; lia | right].
  split; [reflexivity | lia].
Qed.

Lemma SFleb_refl_finite (s : bool) (m : positive) (e : Z) :
  SFleb (S754_finite s m e) (S754_finite s m e) = true.
Proof.
  unfold SFleb, SFcompare. rewrite Z.compare_refl.
  change (Pos.compare_cont Eq m m) with (Pos.compare m m).
  rewrite Pos.compare_refl. destruct s; reflexivity.
Qed.

Lemma SFadd_duration_finite (mt md : positive) (et ed : Z) :
  bounded prec emax mt et = true ->
  let r := SFadd prec emax (S754_finite false mt et) (S754_finite false md ed) in
  SFleb (S754_finite false mt et) r = true /\ SFleb (S754_zero false) r = true.
Proof.
  intros Hb r. subst r.
  pose proof (shl_align_value mt et (Z.min et ed)) as [Hm He].
  unfold SFadd. cbn [cond_Zopp].
  set (ez := Z.min et ed) in *.
  set (a := fst (shl_align mt et ez)) in *.
  set (b := fst (shl_align md ed ez)) in *.
  change (Zpos a + Zpos b)%Z with (Zpos (a + b)).
  cbn [binary_normalize].
  replace (snd (shl_align mt et ez)) with ez in Hm by (rewrite He; subst ez; lia).
  apply binary_round_above;
    [exact Hb | subst ez; lia | rewrite Pos2Z.inj_add, <- Hm; lia].
Qed.

(** Adding a duration that is not negative to a time that is not negative
    gives a time that is not earlier, in binary32. *)
Lemma SFadd_duration (t d : float) :
  valid t -> valid d ->
  SFleb (S754_zero false) t = true -> SFleb (S754_zero false) d = true ->
  SFleb t (SFadd prec emax t d) = true
  /\ SFleb (S754_zero false) (SFadd prec emax t d) = true
  /\ valid (SFadd prec emax t d).
Proof.
  intros Vt Vd Ht Hd.
  assert (Vr : valid (SFadd prec emax t d)) by (apply SFadd_valid; assumption).
  split; [ | split; [ | exact Vr]]; clear Vr;
    destruct t as [st | st | | st mt et], d as [sd | sd | | sd md ed];
    try discriminate Ht; try discriminate Hd;
    repeat match goal with s : bool |- _ => destruct s end;
    try discriminate Ht; try discriminate Hd;
    try reflexivity; try apply SFleb_refl_finite;
    apply SFadd_duration_finite; exact Vt.
Qed.

Lemma f0_float : (f0 : float) = S754_zero false.
Proof. reflexivity. Qed.

(** ** Monotone switch-point times in both arithmetics *)

Lemma float_switch_times (powf : float -> float -> float) (dist : float)
    (limits : DynamicLimits float) (solver : SolverParameters float)
    (params : SCurveParameters float) :
  generateSCurve powf dist limits solver = Some params ->
  monotone_times params /\ switch_point params 0 = origin_switch_point.
Proof.
  apply (@generateSCurve_sorted float _ powf valid).
  - reflexivity.
  - reflexivity.
  - exact SFdiv_valid.
  - exact SFsub_valid.
  - exact SFadd_duration.
Qed.

Lemma Q_add_duration (t d : Q) :
  True -> True -> Qle_bool 0 t = true -> Qle_bool 0 d = true ->
  Qle_bool t (t + d) = true /\ Qle_bool 0 (t + d) = true /\ True.
Proof.
  intros _ _ Ht Hd. apply Qle_bool_iff in Ht. apply Qle_bool_iff in Hd.
  repeat split; apply Qle_bool_iff; lra.
Qed.

Lemma Q_switch_times (powf : Q -> Q -> Q) (dist : Q)
    (limits : DynamicLimits Q) (solver : SolverParameters Q)
    (params : SCurveParameters Q) :
  generateSCurve powf dist limits solver = Some params ->
  monotone_times params /\ switch_point params 0 = origin_switch_point.
Proof.
  apply (@generateSCurve_sorted Q _ powf (fun _ => True)).
  - exact I.
  - reflexivity.
  - intros; exact I.
  - intros; exact I.
  - exact Q_add_duration.
Qed.

(** C2. The parameters of every successful [generateSCurve] run have
    switch-point times that never decrease, [t[i] <= t[i+1]] for [i] from 0
    to 6, and start at the origin [(0,0,0,0)]; so do the parameters that
    [populateSwitchTimeParameters] fills from three durations that are not
    negative.  This holds in binary32 and in exact arithmetic. *)
Theorem accepted_times_monotone :
  (forall (powf : float -> float -> float) (dist : float)
          (limits : DynamicLimits float) (solver : SolverParameters float)
          (params : SCurveParameters float),
      generateSCurve powf dist limits solver = Some params ->
      monotone_times params /\ switch_point params 0 = origin_switch_point)
  /\ (forall (params : SCurveParameters float) (dt_j dt_a dt_v : float),
        good_duration valid dt_j -> good_duration valid dt_a ->
        good_duration valid dt_v ->
        let r := populateSwitchTimeParameters params dt_j dt_a dt_v in
        monotone_times r /\ switch_point r 0 = origin_switch_point)
  /\ (forall (powf : Q -> Q -> Q) (dist : Q) (limits : DynamicLimits Q)
             (solver : SolverParameters Q) (params : SCurveParameters Q),
        generateSCurve powf dist limits solver = Some params ->
        monotone_times params /\ switch_point params 0 = origin_switch_point).
Proof.
  split; [exact float_switch_times | split; [ | exact Q_switch_times]].
  intros params dt_j dt_a dt_v Hj Ha Hv.
  apply (@populateSwitchTimeParameters_sorted float _ valid); try assumption.
  - reflexivity.
  - reflexivity.
  - exact SFadd_duration.
Qed.

Lemma accepted_times_monotone_witness :
  exists params : SCurveParameters float,
    generateSCurve pow_square (of_int 1) demo_limits demo_solver = Some params
    /\ monotone_times params
    /\ switch_point params 0 = origin_switch_point.
Proof.
  eexists. split.
  - vm_compute. reflexivity.
  - apply (proj1 accepted_times_monotone pow_square (of_int 1) demo_limits
             demo_solver).
    vm_compute. reflexivity.
Defined.

(** ** Overflow of binary32 operations *)

(** A truncation step without assumption on the exponent. *)
Lemma shr_fexp_exponent (m e : Z) (l : location) (mrs : shr_record) (e' : Z) :
  (0 <= m)%Z ->
  shr_fexp prec emax m e l = (mrs, e') ->
  e' = Z.max e (fexp prec emax (Zdigits2 m + e))
  /\ shr_m mrs = (m / 2 ^ (e' - e))%Z.
Proof.
  intros Hm. unfold shr_fexp, shr.
  destruct (fexp prec emax (Zdigits2 m + e) - e)%Z as [ | n | n] eqn:En;
    intro E; inversion E; subst; clear E.
  - split; [lia | ].
    rewrite shr_record_of_loc_mantissa, Z.sub_diag, Z.pow_0_r, Z.div_1_r.
    reflexivity.
  - split; [lia | ].
    destruct (@iter_shr_1_mantissa n (shr_record_of_loc m l)) as [E1 _].
    + rewrite shr_record_of_loc_mantissa. exact Hm.
    + rewrite E1, shr_record_of_loc_mantissa. f_equal. f_equal. lia.
  - split; [lia | ].
    rewrite shr_record_of_loc_mantissa, Z.sub_diag, Z.pow_0_r, Z.div_1_r.
    reflexivity.
Qed.

Lemma Zdigits2_succ (m : Z) : (0 <= m)%Z -> (Zdigits2 (m + 1) <= Zdigits2 m + 1)%Z.
Proof.
  intro Hm. destruct (Z.eq_dec m 0) as [-> | Hne]; [simpl; lia | ].
  rewrite !Zdigits2_log2 by lia.
  pose proof (Z.log2_succ_le m). unfold Z.succ in *. lia.
Qed.


(** Rounding a number below [2^126] does not overflow. *)
Lemma binary_round_aux_finite (s : bool) (m e : Z) (l : location) :
  (0 <= m)%Z ->
  (e <= fexp prec emax (Zdigits2 m + e))%Z ->
  (Zdigits2 m + e <= 126)%Z ->
  finite_float (binary_round_aux prec emax s m e l) = true.
Proof.
  intros Hm He Hmag. unfold binary_round_aux.
  destruct (shr_fexp prec emax m e l) as [mrs' e'] eqn:S1.
  destruct (@shr_fexp_exponent _ _ _ _ _ Hm S1) as [Ee' Em'].
  set (m1 := round_nearest_even (shr_m mrs') (loc_of_shr_record mrs')).
  pose proof (round_nearest_even_bounds (shr_m mrs') (loc_of_shr_record mrs')) as Hr.
  fold m1 in Hr.
  assert (Hpow : (0 < 2 ^ (e' - e))%Z) by (apply Z.pow_pos_nonneg; lia).
  assert (Hm' : (0 <= shr_m mrs')%Z) by (rewrite Em'; apply Z.div_pos; lia).
  assert (Hd' : (Zdigits2 (shr_m mrs') + e' <= Z.max (Zdigits2 m + e) e')%Z).
  { destruct (Z.eq_dec (shr_m mrs') 0) as [Hz | Hnz].
    - rewrite Hz. simpl. lia.
    - rewrite Em'. rewrite Zdigits2_div_pow2 by (try rewrite <- Em'; lia). lia. }
  assert (Hd1 : (Zdigits2 m1 <= Zdigits2 (shr_m mrs') + 1)%Z).
  { etransitivity; [ | apply Zdigits2_succ; exact Hm'].
    apply Zdigits2_monotone. lia. }
  assert (Hm1 : (0 <= m1)%Z) by lia.
  destruct (shr_fexp prec emax m1 e' loc_Exact) as [mrs'' e''] eqn:S2.
  destruct (@shr_fexp_exponent _ _ _ _ _ Hm1 S2) as [Ee'' Em''].
  rewrite fexp_binary32 in He, Ee', Ee''.
  assert (Hpow2 : (0 < 2 ^ (e'' - e'))%Z) by (apply Z.pow_pos_nonneg; lia).
  assert (Hm2 : (0 <= shr_m mrs'')%Z) by (rewrite Em''; apply Z.div_pos; lia).
  destruct (shr_m mrs'') as [ | p | p] eqn:Ep; [reflexivity | | lia].
  assert (Hle : Z.leb e'' (emax - prec) = true).
  { apply Z.leb_le. change (emax - prec)%Z with 104%Z. lia. }
  rewrite Hle. reflexivity.
Qed.











(** ** The final displacement of an accepted profile *)

Section Displacement.
Context {F : Type} `{Scalar F}.
Variable powf : F -> F -> F.



End Displacement.

(** ** The stored trajectory in binary32 *)










(** Adding a finite multiple of a zero keeps the value. *)
Lemma SFadd_zero_step (x v dt : float) :
  finite_float v = true -> is_zero dt = true ->
  F2X (SFadd prec emax x (SFmul prec emax v dt)) = F2X x.
Proof.
  destruct dt as [sd | | | ]; try discriminate.
  destruct v as [sv | | | sv mv ev]; try discriminate; intros _ _;
    destruct x as [sx | sx | | sx mx ex]; try reflexivity;
    destruct sx, sv, sd; reflexivity.
Qed.












(** * Further properties of the code *)

(** ** Equality of points and of velocities *)

Lemma SFeqb_sym (x y : float) : SFeqb x y = SFeqb y x.
Proof.
  unfold SFeqb, SFcompare; float_cases; simpl; try reflexivity;
    order_cases; simpl; try reflexivity; lia.
Qed.

Lemma SFeqb_trans (x y z : float) :
  SFeqb x y = true -> SFeqb y z = true -> SFeqb x z = true.
Proof.
  intros Hxy Hyz.
  apply SFeqb_ieee_eq in Hxy. apply SFeqb_ieee_eq in Hyz. apply SFeqb_ieee_eq.
  destruct x as [sx | sx | | sx mx ex], y as [sy | sy | | sy my ey],
    z as [sz | sz | | sz mz ez]; simpl in *; try contradiction;
    try discriminate; try congruence; exact I.
Qed.

Lemma SFeqb_refl_iff (x : float) : SFeqb x x = true <-> not_nan x.
Proof.
  unfold not_nan. rewrite SFeqb_ieee_eq.
  destruct x; simpl; split; intro; try congruence; try exact I; try contradiction.
Qed.

(** X1. [Velocity::operator==] holds exactly when each pair of components
    is equal as IEEE [==] sees it: no NaN on either side, zeros of either
    sign alike, otherwise the same float. *)
Theorem Velocity_eq_iff_ieee_eq (v w : Velocity float) :
  Velocity_eq v w = true
  <-> ieee_eq (vx_ v) (vx_ w) /\ ieee_eq (vy_ v) (vy_ w)
      /\ ieee_eq (va_ v) (va_ w).
Proof.
  unfold Velocity_eq; simpl.
  rewrite !andb_true_iff, !SFeqb_ieee_eq. tauto.
Qed.

(** X2. [operator==] of [Point] and of [Velocity] is symmetric and
    transitive on all floats, NaN and signed zeros included. *)
Theorem equality_symmetric_transitive :
  (forall p q : Point float, Point_eq p q = Point_eq q p)
  /\ (forall p q r : Point float,
        Point_eq p q = true -> Point_eq q r = true -> Point_eq p r = true)
  /\ (forall v w : Velocity float, Velocity_eq v w = Velocity_eq w v)
  /\ (forall u v w : Velocity float,
        Velocity_eq u v = true -> Velocity_eq v w = true ->
        Velocity_eq u w = true).
Proof.
  repeat split.
  - intros p q. unfold Point_eq; simpl.
    rewrite (SFeqb_sym (x_ p)), (SFeqb_sym (y_ p)), (SFeqb_sym (a_ p)).
    reflexivity.
  - intros p q r. unfold Point_eq; simpl.
    rewrite !andb_true_iff. intros [[X1 Y1] A1] [[X2 Y2] A2].
    repeat split; eapply SFeqb_trans; eassumption.
  - intros v w. unfold Velocity_eq; simpl.
    rewrite (SFeqb_sym (vx_ v)), (SFeqb_sym (vy_ v)), (SFeqb_sym (va_ v)).
    reflexivity.
  - intros u v w. unfold Velocity_eq; simpl.
    rewrite !andb_true_iff. intros [[X1 Y1] A1] [[X2 Y2] A2].
    repeat split; eapply SFeqb_trans; eassumption.
Qed.

(** X3. A [Point] or a [Velocity] compares equal to itself exactly when
    none of its components is NaN. *)
Theorem equality_reflexive_iff_no_nan :
  (forall p : Point float, Point_eq p p = true <-> no_nan_point p)
  /\ (forall v : Velocity float, Velocity_eq v v = true <-> no_nan_velocity v).
Proof.
  split; intros p.
  - unfold Point_eq, no_nan_point; simpl.
    rewrite !andb_true_iff, !SFeqb_refl_iff. tauto.
  - unfold Velocity_eq, no_nan_velocity; simpl.
    rewrite !andb_true_iff, !SFeqb_refl_iff. tauto.
Qed.

Lemma SFltb_abs_nonpositive (x e : float) :
  SFltb (S754_zero false) e = false -> SFltb (SFabs x) e = false.
Proof.
  unfold SFltb, SFcompare; destruct x as [sx | sx | | sx mx ex],
    e as [se | se | | se me ee]; simpl; try reflexivity; try discriminate;
    repeat match goal with s : bool |- _ => destruct s end; simpl;
    try reflexivity; try discriminate.
Qed.

Lemma SFltb_abs_not_finite (x e : float) :
  finite_float x = false -> SFltb (SFabs x) e = false.
Proof.
  unfold SFltb, SFcompare; destruct x as [sx | sx | | sx mx ex],
    e as [se | se | | se me ee]; simpl; try reflexivity; try discriminate;
    repeat match goal with s : bool |- _ => destruct s end; simpl;
    try reflexivity; try discriminate.
Qed.

(** X4. With a tolerance that is not positive (zero, negative or NaN) no
    velocity is near zero; the zero velocity of the default constructor
    is near zero exactly for the positive tolerances, the default [1e-6]
    among them. *)
Theorem nearZero_needs_positive_tolerance (e : float) :
  (SFltb (S754_zero false) e = false ->
   forall v : Velocity float, nearZero v e = false)
  /\ nearZero (Velocity_ctor None None None) e = SFltb (S754_zero false) e
  /\ nearZero (F := float) (Velocity_ctor None None None) eps = true.
Proof.
  split; [ | split].
  - intros He v. unfold nearZero; simpl.
    rewrite (SFltb_abs_nonpositive (vx_ v) e He). reflexivity.
  - unfold nearZero; simpl. change (SFabs (f0 : float)) with (S754_zero false).
    destruct (SFltb (S754_zero false) e); reflexivity.
  - vm_compute. reflexivity.
Qed.

(** X5. A velocity with a component that is NaN or infinite is not near
    zero, whatever the tolerance (an infinite one included). *)
Theorem nearZero_rejects_non_finite (v : Velocity float) (e : float) :
  finite_float (vx_ v) = false \/ finite_float (vy_ v) = false
  \/ finite_float (va_ v) = false ->
  nearZero v e = false.
Proof.
  unfold nearZero; simpl. intros [Hf | [Hf | Hf]];
    rewrite (SFltb_abs_not_finite _ e Hf); rewrite ?andb_false_r; reflexivity.
Qed.

Lemma nearZero_rejects_non_finite_witness :
  nearZero (mkVelocity (S754_zero false) S754_nan (S754_zero false))
           (S754_infinity false) = false.
Proof.
  apply nearZero_rejects_non_finite. right; left; reflexivity.
Defined.

(** ** Exact and monotone rounding of products *)

Lemma div_pow2_divide (m a b : Z) :
  (0 <= a)%Z -> (0 <= b)%Z -> (2 ^ (a + b) | m)%Z -> (2 ^ b | m / 2 ^ a)%Z.
Proof.
  intros Ha Hb [k Hk]. exists k.
  rewrite Hk, Z.pow_add_r, (Z.mul_comm (2 ^ a)), Z.mul_assoc by lia.
  apply Z.div_mul. apply Z.pow_nonzero; lia.
Qed.

Lemma shr_1_exact (mrs : shr_record) :
  shr_r mrs = false -> shr_s mrs = false -> (2 | shr_m mrs)%Z ->
  shr_r (shr_1 mrs) = false /\ shr_s (shr_1 mrs) = false.
Proof.
  destruct mrs as [m r s]; simpl. intros -> -> [k Hk].
  destruct m as [ | [p | p | ] | [p | p | ]]; simpl; try (split; reflexivity); lia.
Qed.

Lemma iter_shr_1_exact (n : positive) :
  forall mrs : shr_record,
    (0 <= shr_m mrs)%Z ->
    shr_r mrs = false -> shr_s mrs = false -> (2 ^ Zpos n | shr_m mrs)%Z ->
    shr_r (iter_pos shr_1 n mrs) = false /\ shr_s (iter_pos shr_1 n mrs) = false.
Proof.
  induction n as [n IH | n IH | ]; intros mrs Hm Hr Hs Hd; simpl iter_pos.
  - replace (Z.pos n~1) with (1 + (Z.pos n + Z.pos n))%Z in Hd by lia.
    destruct (@shr_1_mantissa mrs Hm) as [E1 H1].
    assert (D1 : (2 ^ (Z.pos n + Z.pos n) | shr_m (shr_1 mrs))%Z).
    { rewrite E1. change (shr_m mrs / 2)%Z with (shr_m mrs / 2 ^ 1)%Z.
      apply div_pow2_divide; [lia | lia | exact Hd]. }
    destruct (@shr_1_exact mrs Hr Hs) as [R1 S1].
    { destruct Hd as [k Hk]. exists (k * 2 ^ (Z.pos n + Z.pos n))%Z.
      rewrite Hk, Z.pow_add_r by lia. change (2 ^ 1)%Z with 2%Z. lia. }
    destruct (@iter_shr_1_mantissa n _ H1) as [E2 H2].
    destruct (IH _ H1 R1 S1) as [R2 S2].
    { destruct D1 as [k Hk]. exists (k * 2 ^ Z.pos n)%Z.
      rewrite Hk, Z.pow_add_r by lia. lia. }
    apply IH; try assumption.
    rewrite E2. apply div_pow2_divide; [lia | lia | exact D1].
  - replace (Z.pos n~0) with (Z.pos n + Z.pos n)%Z in Hd by lia.
    destruct (@iter_shr_1_mantissa n _ Hm) as [E2 H2].
    destruct (IH _ Hm Hr Hs) as [R2 S2].
    { destruct Hd as [k Hk]. exists (k * 2 ^ Z.pos n)%Z.
      rewrite Hk, Z.pow_add_r by lia. lia. }
    apply IH; try assumption.
    rewrite E2. apply div_pow2_divide; [lia | lia | exact Hd].
  - apply shr_1_exact; try assumption.
Qed.

(** A truncation that drops only zero digits is exact. *)
Lemma shr_fexp_exact (m e : Z) (mrs : shr_record) (e' : Z) :
  (0 <= m)%Z ->
  (e <= fexp prec emax (Zdigits2 m + e))%Z ->
  shr_fexp prec emax m e loc_Exact = (mrs, e') ->
  (2 ^ (fexp prec emax (Zdigits2 m + e) - e) | m)%Z ->
  loc_of_shr_record mrs = loc_Exact.
Proof.
  intros Hm He. unfold shr_fexp, shr.
  destruct (fexp prec emax (Zdigits2 m + e) - e)%Z as [ | n | n] eqn:En;
    intros E Hd; inversion E; subst; clear E.
  - reflexivity.
  - destruct (@iter_shr_1_exact n (shr_record_of_loc m loc_Exact)) as [R S];
      try reflexivity; try exact Hm; try exact Hd.
    change (shr_record_of_loc m loc_Exact)
      with (Build_shr_record m false false) in R, S.
    revert R S.
    match goal with
    | |- context [iter_pos shr_1 n ?r0] => generalize (iter_pos shr_1 n r0)
    end.
    intros [m' r s]; simpl; intros -> ->. reflexivity.
  - lia.
Qed.

(** Rounding a representable number written with spare zero digits gives
    that number. *)
Lemma binary_round_aux_exact (s : bool) (m : positive) (e k : Z) :
  bounded prec emax m e = true -> (0 <= k)%Z ->
  binary_round_aux prec emax s (Zpos m * 2 ^ k) (e - k) loc_Exact
  = S754_finite s m e.
Proof.
  intros Hb Hk.
  pose proof (bounded_canonical _ _ Hb) as Hcan.
  assert (Hpow : (0 < 2 ^ k)%Z) by (apply Z.pow_pos_nonneg; lia).
  assert (HM : (0 <= Zpos m * 2 ^ k)%Z) by lia.
  assert (HE : fexp prec emax (Zdigits2 (Zpos m * 2 ^ k) + (e - k)) = e).
  { rewrite Zdigits2_mul_pow2 by lia.
    change (Zdigits2 (Zpos m)) with (Zpos (digits2_pos m)).
    rewrite fexp_binary32.
    replace (Z.pos (digits2_pos m) + k + (e - k) - 24)%Z
      with (Z.pos (digits2_pos m) + e - 24)%Z by lia.
    symmetry; exact Hcan. }
  assert (Hpre : (e - k <= fexp prec emax (Zdigits2 (Zpos m * 2 ^ k) + (e - k)))%Z)
    by (rewrite HE; lia).
  unfold binary_round_aux.
  destruct (shr_fexp prec emax (Zpos m * 2 ^ k) (e - k) loc_Exact)
    as [mrs' e'] eqn:S1.
  destruct (@shr_fexp_stage _ _ _ _ _ HM Hpre S1) as [Ee' Em'].
  assert (Hloc : loc_of_shr_record mrs' = loc_Exact).
  { apply (@shr_fexp_exact _ _ _ _ HM Hpre S1).
    rewrite HE. replace (e - (e - k))%Z with k by lia.
    exists (Zpos m). reflexivity. }
  rewrite HE in Ee'. subst e'.
  replace (e - (e - k))%Z with k in Em' by lia.
  rewrite Z.div_mul in Em' by lia.
  rewrite Em', Hloc. cbn [round_nearest_even].
  unfold shr_fexp.
  change (Zdigits2 (Zpos m)) with (Zpos (digits2_pos m)).
  rewrite fexp_binary32.
  replace (Z.max (Z.pos (digits2_pos m) + e - 24) (-149) - e)%Z with 0%Z by lia.
  cbn [shr shr_record_of_loc shr_m].
  replace (e + 0)%Z with e by lia.
  unfold bounded in Hb. apply andb_true_iff in Hb. destruct Hb as [_ Hle].
  rewrite Hle. reflexivity.
Qed.

Lemma float_one : float_of_int 1 = S754_finite false 8388608 (-23).
Proof. reflexivity. Qed.

(** The product with one is the other factor. *)
Lemma SFmul_one (x : float) : valid x -> SFmul prec emax (float_of_int 1) x = x.
Proof.
  intro Vx. rewrite float_one.
  destruct x as [s | s | | s m e]; try reflexivity.
  unfold SFmul. cbn [xorb].
  replace (Zpos (8388608 * m)) with (Zpos m * 2 ^ 23)%Z by (change (2 ^ 23)%Z with 8388608%Z; lia).
  replace (-23 + e)%Z with (e - 23)%Z by lia.
  apply binary_round_aux_exact; [exact Vx | lia].
Qed.

Lemma bounded_digits (m : positive) (e : Z) :
  bounded prec emax m e = true ->
  (Zpos (digits2_pos m) <= 24)%Z /\ (-149 <= e <= 104)%Z
  /\ (e = (-149)%Z \/ Zpos (digits2_pos m) = 24%Z).
Proof.
  intro Hb. pose proof (bounded_canonical _ _ Hb) as Hcan.
  unfold bounded in Hb. apply andb_true_iff in Hb. destruct Hb as [_ Hle].
  apply Z.leb_le in Hle. change (emax - prec)%Z with 104%Z in Hle. lia.
Qed.

Lemma Zdigits2_mul_lower (a b : positive) :
  (Zpos (digits2_pos a) + Zpos (digits2_pos b) - 1 <= Zdigits2 (Zpos (a * b)))%Z.
Proof.
  pose proof (digits2_pos_bounds a) as [Ha _].
  pose proof (digits2_pos_bounds b) as [Hb _].
  rewrite Zdigits2_log2 by lia.
  assert (Hp : (2 ^ (Zpos (digits2_pos a) - 1 + (Zpos (digits2_pos b) - 1))
                <= Zpos (a * b))%Z).
  { rewrite Z.pow_add_r by lia. rewrite Pos2Z.inj_mul.
    apply Z.mul_le_mono_nonneg; try lia; apply Z.pow_nonneg; lia. }
  apply Z.log2_le_pow2 in Hp; lia.
Qed.

(** The product of two mantissas has digits to spare. *)
Lemma product_exponent (mx my : positive) (ex ey : Z) :
  bounded prec emax mx ex = true -> bounded prec emax my ey = true ->
  (ex + ey <= fexp prec emax (Zdigits2 (Zpos (mx * my)) + (ex + ey)))%Z.
Proof.
  intros Hx Hy.
  destruct (bounded_digits _ _ Hx) as (Dx & Ex & Cx).
  destruct (bounded_digits _ _ Hy) as (Dy & Ey & Cy).
  pose proof (Zdigits2_mul_lower mx my) as Hd.
  assert (1 <= Zpos (digits2_pos mx))%Z by lia.
  assert (1 <= Zpos (digits2_pos my))%Z by lia.
  rewrite fexp_binary32. lia.
Qed.

Lemma SFmul_valid (x y : float) : valid x -> valid y -> valid (SFmul prec emax x y).
Proof.
  intros Vx Vy.
  destruct x as [sx | sx | | sx mx ex], y as [sy | sy | | sy my ey];
    try reflexivity.
  unfold SFmul. apply binary_round_aux_valid; [lia | ].
  apply product_exponent; assumption.
Qed.

Lemma SFleb_zero_finite (m : positive) (e : Z) :
  SFleb (S754_zero false) (S754_finite false m e) = true.
Proof. reflexivity. Qed.

(** Rounding a number that is at most a representable positive [x] gives
    at most [x], and does not overflow. *)
Lemma binary_round_aux_below (M ez : Z) (mx : positive) (ex : Z) :
  bounded prec emax mx ex = true ->
  (0 <= M)%Z ->
  (ez <= fexp prec emax (Zdigits2 M + ez))%Z ->
  (ez <= ex)%Z ->
  (M <= Zpos mx * 2 ^ (ex - ez))%Z ->
  let r := binary_round_aux prec emax false M ez loc_Exact in
  SFleb r (S754_finite false mx ex) = true
  /\ SFleb (S754_zero false) r = true.
Proof.
  intros Hb HM0 Hpre Hez HM r. subst r.
  pose proof (bounded_canonical _ _ Hb) as Hcan.
  destruct (bounded_digits _ _ Hb) as (Dx & Ex & _).
  assert (Hpow : (0 < 2 ^ (ex - ez))%Z) by (apply Z.pow_pos_nonneg; lia).
  assert (Hdig : (Zdigits2 M <= Zpos (digits2_pos mx) + (ex - ez))%Z).
  { change (Zpos (digits2_pos mx)) with (Zdigits2 (Zpos mx)).
    rewrite <- Zdigits2_mul_pow2 by lia. apply Zdigits2_monotone. lia. }
  set (E0 := fexp prec emax (Zdigits2 M + ez)) in *.
  assert (HE0 : (E0 <= ex)%Z).
  { subst E0. rewrite fexp_binary32. lia. }
  assert (Hp0 : (0 < 2 ^ (E0 - ez))%Z) by (apply Z.pow_pos_nonneg; lia).
  assert (Hp1 : (0 < 2 ^ (ex - E0))%Z) by (apply Z.pow_pos_nonneg; lia).
  assert (Hsplit : (2 ^ (ex - ez) = 2 ^ (ex - E0) * 2 ^ (E0 - ez))%Z).
  { rewrite <- Z.pow_add_r by lia. f_equal. lia. }
  set (X0 := (Zpos mx * 2 ^ (ex - E0))%Z).
  assert (HMX : (M <= X0 * 2 ^ (E0 - ez))%Z) by (subst X0; nia).
  unfold binary_round_aux.
  destruct (shr_fexp prec emax M ez loc_Exact) as [mrs' e'] eqn:S1.
  destruct (@shr_fexp_stage _ _ _ _ _ HM0 Hpre S1) as [Ee' Em'].
  fold E0 in Ee'. subst e'.
  destruct (@truncated_canonical _ _ HM0 Hpre) as (Hnn & Hcan1 & Hzero).
  fold E0 in Hnn, Hcan1, Hzero. rewrite <- Em' in Hnn, Hcan1, Hzero.
  set (m1 := round_nearest_even (shr_m mrs') (loc_of_shr_record mrs')).
  pose proof (round_nearest_even_bounds (shr_m mrs') (loc_of_shr_record mrs')) as Hr.
  fold m1 in Hr.
  (* the rounded mantissa does not pass x written at the same exponent *)
  assert (Hm1X : (m1 <= X0)%Z).
  { assert (Hle : (shr_m mrs' <= X0)%Z).
    { rewrite Em'. apply Z.div_le_upper_bound; lia. }
    destruct (Z.eq_dec (shr_m mrs') X0) as [Heq | Hne]; [ | lia].
    assert (HMeq : M = (X0 * 2 ^ (E0 - ez))%Z).
    { assert (X0 * 2 ^ (E0 - ez) <= M)%Z; [ | lia].
      rewrite <- Heq, Em'. rewrite Z.mul_comm. apply Z.mul_div_le. lia. }
    assert (Hloc : loc_of_shr_record mrs' = loc_Exact).
    { apply (@shr_fexp_exact _ _ _ _ HM0 Hpre S1). fold E0.
      exists X0. exact HMeq. }
    subst m1. rewrite Hloc. cbn [round_nearest_even]. lia. }
  assert (Hm1 : (0 <= m1)%Z) by lia.
  assert (He1 : (E0 <= fexp prec emax (Zdigits2 m1 + E0))%Z).
  { destruct (Z.eq_dec (shr_m mrs') 0) as [Hz | Hnz].
    - rewrite (Hzero Hz), fexp_binary32. lia.
    - rewrite <- (Hcan1 ltac:(lia)) at 1. apply fexp_monotone.
      pose proof (@Zdigits2_monotone (shr_m mrs') m1 ltac:(lia)). lia. }
  destruct (shr_fexp prec emax m1 E0 loc_Exact) as [mrs'' e''] eqn:S2.
  destruct (@shr_fexp_stage _ _ _ _ _ Hm1 He1 S2) as [Ee'' Em''].
  assert (HdX : Zdigits2 X0 = (Zpos (digits2_pos mx) + (ex - E0))%Z).
  { subst X0. rewrite Zdigits2_mul_pow2 by lia. reflexivity. }
  assert (He'' : (e'' <= ex)%Z).
  { rewrite Ee''.
    assert (Hd1 : (Zdigits2 m1 <= Zdigits2 X0)%Z) by (apply Zdigits2_monotone; lia).
    rewrite fexp_binary32. lia. }
  assert (Hp2 : (0 < 2 ^ (e'' - E0))%Z).
  { apply Z.pow_pos_nonneg; [lia | ]. rewrite Ee''. lia. }
  assert (E0e'' : (E0 <= e'')%Z) by (rewrite Ee''; lia).
  assert (Hord : (0 <= shr_m mrs'')%Z
                 /\ (e'' = ex -> (shr_m mrs'' <= Zpos mx)%Z)).
  { split.
    - rewrite Em''. apply Z.div_pos; lia.
    - intro Heq. rewrite Em'', Heq.
      apply Z.div_le_upper_bound; [lia | ]. subst X0. lia. }
  destruct Hord as [Hnn2 Hle2].
  destruct (shr_m mrs'') as [ | p | p] eqn:Ep; [split; reflexivity | | lia].
  assert (Hfit : Z.leb e'' (emax - prec) = true).
  { apply Z.leb_le. change (emax - prec)%Z with 104%Z. lia. }
  rewrite Hfit. split; [ | reflexivity].
  apply SFleb_finite_nonneg.
  destruct (Z.eq_dec e'' ex) as [Heq | Hne]; [right | left; lia].
  split; [exact Heq | ]. specialize (Hle2 Heq). lia.
Qed.

Lemma SFleb_finite_nonneg_inv (m1 m2 : positive) (e1 e2 : Z) :
  SFleb (S754_finite false m1 e1) (S754_finite false m2 e2) = true ->
  (e1 < e2)%Z \/ (e1 = e2 /\ (Zpos m1 <= Zpos m2)%Z).
Proof.
  unfold SFleb, SFcompare.
  change (Pos.compare_cont Eq m1 m2) with (Pos.compare m1 m2).
  destruct (Z.compare_spec e1 e2) as [He | He | He]; try discriminate.
  - destruct (Pos.compare_spec m1 m2) as [Hm | Hm | Hm]; try discriminate;
      intros _; right; split; try assumption; lia.
  - intros _. left. exact He.
Qed.

(** A float that is at most one has a mantissa of at most [2^-e]. *)
Lemma fraction_mantissa (mc : positive) (ec : Z) :
  bounded prec emax mc ec = true ->
  SFleb (S754_finite false mc ec) (S754_finite false 8388608 (-23)) = true ->
  (ec <= 0)%Z /\ (Zpos mc <= 2 ^ (- ec))%Z.
Proof.
  intros Hb Hle.
  destruct (bounded_digits _ _ Hb) as (Dc & _ & _).
  pose proof (digits2_pos_bounds mc) as [_ Hmc].
  apply SFleb_finite_nonneg_inv in Hle. clear Hb.
  destruct Hle as [He | [He Hm]].
  - split; [lia | ].
    assert (Hp : (2 ^ Zpos (digits2_pos mc) <= 2 ^ (- ec))%Z)
      by (apply Z.pow_le_mono_r; lia).
    lia.
  - subst ec. split; [lia | ]. change (2 ^ (- -23))%Z with 8388608%Z. lia.
Qed.

(** Scaling a finite non-negative [v] by a factor between zero and one
    gives a value between zero and [v]. *)
Lemma SFmul_fraction (c v : float) :
  valid c -> valid v ->
  SFleb (S754_zero false) c = true -> SFleb c (float_of_int 1) = true ->
  SFleb (S754_zero false) v = true -> finite_float v = true ->
  SFleb (SFmul prec emax c v) v = true
  /\ SFleb (S754_zero false) (SFmul prec emax c v) = true.
Proof.
  intros Vc Vv Hc0 Hc1 Hv0 Hf.
  rewrite float_one in Hc1.
  destruct c as [sc | sc | | sc mc ec], v as [sv | sv | | sv mv ev];
    try discriminate Hf; try discriminate Hc0; try discriminate Hc1;
    try discriminate Hv0;
    repeat match goal with s : bool |- _ => destruct s end;
    try discriminate Hc0; try discriminate Hv0; try discriminate Hc1;
    try (split; reflexivity).
  unfold SFmul. cbn [xorb].
  pose proof (@fraction_mantissa mc ec Vc Hc1) as Hone.
  destruct Hone as [Hec Hmle].
  apply binary_round_aux_below.
  - exact Vv.
  - lia.
  - apply product_exponent; assumption.
  - lia.
  - replace (ev - (ec + ev))%Z with (- ec)%Z by lia.
    rewrite Pos2Z.inj_mul. nia.
Qed.

(** ** Scaling of dynamic limits *)

(** X6. Scaling by [1] gives the same limits back, bit for bit. *)
Theorem DynamicLimits_mul_one (l : DynamicLimits float) :
  valid_limits l -> DynamicLimits_mul l (of_int 1) = l.
Proof.
  intros (Vv & Va & Vj). destruct l as [v a j].
  cbn [max_vel_ max_acc_ max_jerk_] in Vv, Va, Vj.
  unfold DynamicLimits_mul.
  cbn [max_vel_ max_acc_ max_jerk_ fmul of_int float_Scalar].
  rewrite !SFmul_one by assumption. reflexivity.
Qed.

Lemma DynamicLimits_mul_one_witness :
  DynamicLimits_mul demo_limits (of_int 1) = demo_limits.
Proof.
  apply DynamicLimits_mul_one. repeat split.
Defined.

(** X7. Scaling finite limits that are not negative by a factor between
    [0] and [1] never raises a limit and never makes one negative, the
    rounding of binary32 included. *)
Theorem DynamicLimits_mul_fraction (l : DynamicLimits float) (c : float) :
  valid_limits l -> valid c ->
  SFleb (S754_zero false) c = true -> SFleb c (of_int 1) = true ->
  finite_nonneg (max_vel_ l) -> finite_nonneg (max_acc_ l) ->
  finite_nonneg (max_jerk_ l) ->
  limits_le (DynamicLimits_mul l c) l
  /\ limits_le zero_limits (DynamicLimits_mul l c).
Proof.
  intros (Vv & Va & Vj) Vc Hc0 Hc1 [Fv Nv] [Fa Na] [Fj Nj].
  destruct (@SFmul_fraction c (max_vel_ l) Vc Vv Hc0 Hc1 Nv Fv) as [H1 H2].
  destruct (@SFmul_fraction c (max_acc_ l) Vc Va Hc0 Hc1 Na Fa) as [H3 H4].
  destruct (@SFmul_fraction c (max_jerk_ l) Vc Vj Hc0 Hc1 Nj Fj) as [H5 H6].
  split; repeat split; assumption.
Qed.

Lemma DynamicLimits_mul_fraction_witness :
  limits_le (DynamicLimits_mul demo_limits (fdiv (of_int 1) (of_int 3)))
            demo_limits
  /\ limits_le zero_limits
               (DynamicLimits_mul demo_limits (fdiv (of_int 1) (of_int 3))).
Proof.
  apply DynamicLimits_mul_fraction; repeat split.
Defined.

(** ** Lengths of the printed texts *)

Ltac literal_lengths :=
  repeat match goal with
         | |- context [length (literal ?s)] =>
             let n := eval vm_compute in (length (literal s)) in
             change (length (literal s)) with n
         | |- context [length newline] => change (length newline) with 1%nat
         end.

Lemma decimal_digits_from_acc (fuel : nat) :
  forall (n : Z) (acc : text),
    (length acc <= length (decimal_digits_from fuel n acc))%nat.
Proof.
  induction fuel as [ | fuel IH]; intros n acc; simpl; [lia | ].
  destruct (n <? 10)%Z; simpl; [lia | ].
  specialize (IH (n / 10)%Z (digit (n mod 10) :: acc)). simpl in IH. lia.
Qed.

(** A number below [10^k] has at most [k] digits. *)
Lemma decimal_digits_from_le (fuel : nat) :
  forall (n : Z) (acc : text) (k : nat),
    (0 <= n < 10 ^ Z.of_nat k)%Z -> (1 <= k)%nat ->
    (length (decimal_digits_from fuel n acc) <= length acc + k)%nat.
Proof.
  induction fuel as [ | fuel IH]; intros n acc k Hn Hk; simpl; [lia | ].
  destruct (Z.ltb_spec n 10) as [Hlt | Hge]; simpl; [lia | ].
  destruct k as [ | [ | k]]; [lia | simpl in Hn; lia | ].
  specialize (IH (n / 10)%Z (digit (n mod 10) :: acc) (S k)).
  simpl length in IH.
  assert (Hq : (0 <= n / 10 < 10 ^ Z.of_nat (S k))%Z).
  { split; [apply Z.div_pos; lia | ].
    apply Z.div_lt_upper_bound; [lia | ].
    replace (Z.of_nat (S (S k))) with (Z.succ (Z.of_nat (S k))) in Hn by lia.
    rewrite Z.pow_succ_r in Hn by lia. lia. }
  specialize (IH Hq ltac:(lia)). lia.
Qed.

(** A number from [10^(k-1)] on has at least [k] digits. *)
Lemma decimal_digits_from_ge (fuel : nat) :
  forall (n : Z) (acc : text) (k : nat),
    (10 ^ (Z.of_nat k - 1) <= n)%Z -> (1 <= k <= fuel)%nat ->
    (length acc + k <= length (decimal_digits_from fuel n acc))%nat.
Proof.
  induction fuel as [ | fuel IH]; intros n acc k Hn Hk; [lia | ].
  simpl.
  destruct (Z.ltb_spec n 10) as [Hlt | Hge].
  - simpl. destruct k as [ | [ | k]]; [lia | lia | exfalso].
    replace (Z.of_nat (S (S k)) - 1)%Z with (Z.succ (Z.of_nat k)) in Hn by lia.
    rewrite Z.pow_succ_r in Hn by lia.
    assert (0 < 10 ^ Z.of_nat k)%Z by (apply Z.pow_pos_nonneg; lia). lia.
  - destruct k as [ | [ | k]]; [lia | | ].
    + pose proof (decimal_digits_from_acc fuel (n / 10) (digit (n mod 10) :: acc)) as Ha.
      simpl in Ha. lia.
    + specialize (IH (n / 10)%Z (digit (n mod 10) :: acc) (S k)).
      simpl length in IH.
      assert (Hq : (10 ^ (Z.of_nat (S k) - 1) <= n / 10)%Z).
      { apply Z.div_le_lower_bound; [lia | ].
        replace (Z.of_nat (S (S k)) - 1)%Z
          with (Z.succ (Z.of_nat (S k) - 1)) in Hn by lia.
        rewrite Z.pow_succ_r in Hn by lia. lia. }
      specialize (IH Hq ltac:(lia)). lia.
Qed.

Lemma decimal_digits_le (n : Z) (k : nat) :
  (0 <= n < 10 ^ Z.of_nat k)%Z -> (1 <= k)%nat ->
  (length (decimal_digits n) <= k)%nat.
Proof.
  intros Hn Hk. unfold decimal_digits.
  pose proof (@decimal_digits_from_le (S (Z.to_nat (Z.log2 n))) n [] k Hn Hk) as H.
  cbn [length] in H. lia.
Qed.

Lemma pow10_pow2 (k : Z) : (0 <= k)%Z -> (2 ^ k <= 10 ^ k)%Z.
Proof. intro Hk. apply Z.pow_le_mono_l. lia. Qed.

Lemma decimal_digits_ge (n : Z) (k : nat) :
  (10 ^ (Z.of_nat k - 1) <= n)%Z -> (1 <= k)%nat ->
  (k <= length (decimal_digits n))%nat.
Proof.
  intros Hn Hk. unfold decimal_digits.
  assert (Hfuel : (k <= S (Z.to_nat (Z.log2 n)))%nat).
  { pose proof (@pow10_pow2 (Z.of_nat k - 1) ltac:(lia)) as Hp.
    assert (Hl : (Z.of_nat k - 1 <= Z.log2 n)%Z).
    { apply Z.log2_le_pow2; [ | lia].
      assert (0 < 2 ^ (Z.of_nat k - 1))%Z by (apply Z.pow_pos_nonneg; lia). lia. }
    lia. }
  pose proof (@decimal_digits_from_ge (S (Z.to_nat (Z.log2 n))) n [] k Hn
                ltac:(lia)) as H.
  cbn [length] in H. lia.
Qed.

Lemma decimal_digits_nonempty (n : Z) : (1 <= length (decimal_digits n))%nat.
Proof.
  unfold decimal_digits. simpl.
  destruct (n <? 10)%Z; simpl; [lia | ].
  pose proof (decimal_digits_from_acc (Z.to_nat (Z.log2 n)) (n / 10)
                [digit (n mod 10)]) as H.
  simpl in H. lia.
Qed.

Lemma fraction_digits_length (decimals : nat) (r : Z) :
  (0 <= r < 10 ^ Z.of_nat decimals)%Z -> (1 <= decimals)%nat ->
  length (fraction_digits decimals r) = decimals.
Proof.
  intros Hr Hd. unfold fraction_digits.
  pose proof (@decimal_digits_le _ _ Hr Hd) as Hl.
  rewrite length_app, repeat_length. lia.
Qed.

Lemma fixed_digits_length (decimals : nat) (scaled : Z) :
  (0 <= scaled)%Z -> (1 <= decimals)%nat ->
  length (fixed_digits decimals scaled)
  = (length (decimal_digits (scaled / 10 ^ Z.of_nat decimals)) + 1 + decimals)%nat.
Proof.
  intros Hs Hd. unfold fixed_digits.
  destruct decimals as [ | d]; [lia | ].
  assert (Hp : (0 < 10 ^ Z.of_nat (S d))%Z) by (apply Z.pow_pos_nonneg; lia).
  rewrite !length_app, fraction_digits_length;
    [literal_lengths; lia | apply Z.mod_pos_bound; exact Hp | lia].
Qed.

Lemma round_half_even_bounds (num den : Z) :
  (num / den <= round_half_even num den <= num / den + 1)%Z.
Proof.
  unfold round_half_even.
  destruct (2 * (num mod den) ?= den)%Z; [destruct (Z.even (num / den)) | | ]; lia.
Qed.

Lemma round_half_even_upper (num den N : Z) :
  (0 < den)%Z -> (num <= N * den)%Z -> (round_half_even num den <= N)%Z.
Proof.
  intros Hden Hle.
  destruct (Z.eq_dec num (N * den)) as [-> | Hne].
  - unfold round_half_even. rewrite Z.mod_mul, Z.div_mul by lia.
    destruct (Z.compare_spec (2 * 0) den); try lia.
  - pose proof (round_half_even_bounds num den) as [_ Hb].
    assert (num / den < N)%Z by (apply Z.div_lt_upper_bound; lia).
    lia.
Qed.

Lemma round_half_even_lower (num den N : Z) :
  (0 < den)%Z -> (N * den <= num)%Z -> (N <= round_half_even num den)%Z.
Proof.
  intros Hden Hle.
  pose proof (round_half_even_bounds num den) as [Hb _].
  assert (N <= num / den)%Z by (apply Z.div_le_lower_bound; lia).
  lia.
Qed.

(** The scaled magnitude of a number below [2^b]. *)
Lemma scaled_magnitude_upper (decimals : nat) (m : positive) (e b : Z) :
  (0 <= b)%Z -> (Zpos (digits2_pos m) + e <= b)%Z ->
  (0 <= scaled_magnitude decimals m e <= 2 ^ b * 10 ^ Z.of_nat decimals)%Z.
Proof.
  intros Hb Hd. unfold scaled_magnitude.
  pose proof (digits2_pos_bounds m) as [_ Hm].
  assert (Hp : (0 < 10 ^ Z.of_nat decimals)%Z) by (apply Z.pow_pos_nonneg; lia).
  destruct (Z.leb_spec 0 e) as [He | He].
  - assert (Hpe : (0 < 2 ^ e)%Z) by (apply Z.pow_pos_nonneg; lia).
    assert (Hle : (Zpos m * 2 ^ e <= 2 ^ b)%Z).
    { assert (2 ^ (Zpos (digits2_pos m) + e) <= 2 ^ b)%Z
        by (apply Z.pow_le_mono_r; lia).
      rewrite Z.pow_add_r in H by lia. nia. }
    split; [nia | nia].
  - assert (Hpe : (0 < 2 ^ (- e))%Z) by (apply Z.pow_pos_nonneg; lia).
    split.
    + pose proof (round_half_even_bounds (Zpos m * 10 ^ Z.of_nat decimals)
                    (2 ^ (- e))) as [Hb1 _].
      assert (0 <= Zpos m * 10 ^ Z.of_nat decimals / 2 ^ (- e))%Z
        by (apply Z.div_pos; lia).
      lia.
    + apply round_half_even_upper; [exact Hpe | ].
      assert (Hle : (Zpos m <= 2 ^ b * 2 ^ (- e))%Z).
      { rewrite <- Z.pow_add_r by lia.
        assert (2 ^ Zpos (digits2_pos m) <= 2 ^ (b + - e))%Z
          by (apply Z.pow_le_mono_r; lia).
        lia. }
      nia.
Qed.

(** The scaled magnitude of a number from [2^b] on. *)
Lemma scaled_magnitude_lower (decimals : nat) (m : positive) (e b : Z) :
  (0 <= b)%Z -> (b < Zpos (digits2_pos m) + e)%Z ->
  (2 ^ b * 10 ^ Z.of_nat decimals <= scaled_magnitude decimals m e)%Z.
Proof.
  intros Hb Hd. unfold scaled_magnitude.
  pose proof (digits2_pos_bounds m) as [Hm _].
  assert (Hp : (0 < 10 ^ Z.of_nat decimals)%Z) by (apply Z.pow_pos_nonneg; lia).
  destruct (Z.leb_spec 0 e) as [He | He].
  - assert (Hpe : (0 < 2 ^ e)%Z) by (apply Z.pow_pos_nonneg; lia).
    assert (Hle : (2 ^ b <= Zpos m * 2 ^ e)%Z).
    { assert (2 ^ b <= 2 ^ (Zpos (digits2_pos m) - 1 + e))%Z
        by (apply Z.pow_le_mono_r; lia).
      rewrite Z.pow_add_r in H by lia. nia. }
    nia.
  - assert (Hpe : (0 < 2 ^ (- e))%Z) by (apply Z.pow_pos_nonneg; lia).
    apply round_half_even_lower; [exact Hpe | ].
    assert (Hle : (2 ^ b * 2 ^ (- e) <= Zpos m)%Z).
    { rewrite <- Z.pow_add_r by lia.
      assert (2 ^ (b + - e) <= 2 ^ (Zpos (digits2_pos m) - 1))%Z
        by (apply Z.pow_le_mono_r; lia).
      lia. }
    nia.
Qed.

Lemma minus_sign_length (s : bool) : (length (minus_sign s) <= 1)%nat.
Proof. destruct s; simpl; lia. Qed.

(** [%.Nf] of a finite number below [2^b], with [2^b < 10^k]: at most a
    sign, [k] digits, the point and [N] decimals. *)
Lemma format_fixed_length_le (decimals : nat) (b : Z) (k : nat) (x : float) :
  finite_below b x -> (0 <= b)%Z -> (2 ^ b < 10 ^ Z.of_nat k)%Z ->
  (1 <= k)%nat -> (1 <= decimals)%nat ->
  (length (format_fixed decimals x) <= 1 + k + 1 + decimals)%nat.
Proof.
  intros [Hf Hmag] Hb Hbk Hk Hd.
  assert (Hp : (0 < 10 ^ Z.of_nat decimals)%Z) by (apply Z.pow_pos_nonneg; lia).
  assert (Hpk : (0 < 2 ^ b)%Z) by (apply Z.pow_pos_nonneg; lia).
  destruct x as [s | s | | s m e]; try discriminate Hf; unfold format_fixed;
    rewrite length_app.
  - pose proof (minus_sign_length s).
    rewrite fixed_digits_length by lia.
    rewrite Z.div_0_l by lia.
    pose proof (@decimal_digits_le 0 k ltac:(lia) Hk). lia.
  - pose proof (minus_sign_length s).
    unfold magnitude_at_most in Hmag.
    pose proof (@scaled_magnitude_upper decimals m e b Hb Hmag) as [Hs0 Hs1].
    rewrite fixed_digits_length by lia.
    assert (Hq : (0 <= scaled_magnitude decimals m e / 10 ^ Z.of_nat decimals
                  < 10 ^ Z.of_nat k)%Z).
    { split; [apply Z.div_pos; lia | ].
      apply Z.div_lt_upper_bound; [lia | ]. nia. }
    pose proof (@decimal_digits_le _ _ Hq Hk). lia.
Qed.

(** [%.Nf] of a finite number from [2^b] on, with [10^(k-1) <= 2^b]: at
    least [k] digits, the point and [N] decimals. *)
Lemma format_fixed_length_ge (decimals : nat) (b : Z) (k : nat) (x : float) :
  finite_from b x -> (0 <= b)%Z -> (10 ^ (Z.of_nat k - 1) <= 2 ^ b)%Z ->
  (1 <= k)%nat -> (1 <= decimals)%nat ->
  (k + 1 + decimals <= length (format_fixed decimals x))%nat.
Proof.
  intros Hmag Hb Hbk Hk Hd.
  assert (Hp : (0 < 10 ^ Z.of_nat decimals)%Z) by (apply Z.pow_pos_nonneg; lia).
  destruct x as [s | s | | s m e]; try contradiction. unfold format_fixed.
  rewrite length_app. unfold finite_from in Hmag.
  pose proof (@scaled_magnitude_lower decimals m e b Hb Hmag) as Hs.
  assert (Hpk : (0 < 2 ^ b)%Z) by (apply Z.pow_pos_nonneg; lia).
  rewrite fixed_digits_length by nia.
  assert (Hq : (10 ^ (Z.of_nat k - 1)
                <= scaled_magnitude decimals m e / 10 ^ Z.of_nat decimals)%Z).
  { apply Z.div_le_lower_bound; [lia | ]. nia. }
  pose proof (@decimal_digits_ge _ _ Hq Hk). lia.
Qed.

(** Every conversion writes at least three characters. *)
Lemma format_fixed_length_min (decimals : nat) (x : float) :
  (1 <= decimals)%nat -> (3 <= length (format_fixed decimals x))%nat.
Proof.
  intro Hd.
  assert (Hp : (0 < 10 ^ Z.of_nat decimals)%Z) by (apply Z.pow_pos_nonneg; lia).
  destruct x as [s | s | | s m e]; unfold format_fixed; rewrite ?length_app.
  - rewrite fixed_digits_length by lia.
    pose proof (decimal_digits_nonempty (0 / 10 ^ Z.of_nat decimals)). lia.
  - literal_lengths. lia.
  - literal_lengths. lia.
  - pose proof (@scaled_magnitude_upper decimals m e
                  (Z.max 0 (Zpos (digits2_pos m) + e)) ltac:(lia) ltac:(lia))
      as [Hs0 _].
    rewrite fixed_digits_length by lia.
    pose proof (decimal_digits_nonempty
                  (scaled_magnitude decimals m e / 10 ^ Z.of_nat decimals)).
    lia.
Qed.

Ltac fixed_le b k :=
  repeat match goal with
         | H : finite_below _ ?x |- _ =>
             let L := fresh "L" in
             pose proof (@format_fixed_length_le 3 b k x H ltac:(lia)
                           ltac:(vm_compute; reflexivity) ltac:(lia) ltac:(lia)) as L;
             clear H
         end.

Ltac fixed_ge b k :=
  repeat match goal with
         | H : finite_from _ ?x |- _ =>
             let L := fresh "L" in
             pose proof (@format_fixed_length_ge 3 b k x H ltac:(lia)
                           ltac:(vm_compute; discriminate) ltac:(lia) ltac:(lia)) as L;
             clear H
         end.

(** X8. [Point::toString] stays inside its array of [100] bytes when each
    component is finite with a magnitude below [2^76] (about [7.5e22]). *)
Theorem Point_toString_fits (p : Point float) :
  finite_below 76 (x_ p) -> finite_below 76 (y_ p) -> finite_below 76 (a_ p) ->
  fits 100 (Point_toString p).
Proof.
  intros Hx Hy Ha. unfold fits, Point_toString.
  rewrite !length_app. literal_lengths.
  fixed_le 76%Z 23%nat. lia.
Qed.

Lemma Point_toString_fits_witness :
  fits 100 (Point_toString (mkPoint (fdiv (of_int 1) (of_int 16))
                                    (fdiv (of_int (-22)) (of_int 7))
                                    (of_int 123456789))).
Proof.
  apply Point_toString_fits; split; vm_compute; first [reflexivity | discriminate].
Defined.

(** X9. [Point::toString] needs more than its array of [100] bytes when
    every component is finite with a magnitude of at least [2^80] (about
    [1.2e24]): [sprintf] then writes past the end of the array. *)
Theorem Point_toString_overflows (p : Point float) :
  finite_from 80 (x_ p) -> finite_from 80 (y_ p) -> finite_from 80 (a_ p) ->
  ~ fits 100 (Point_toString p).
Proof.
  intros Hx Hy Ha. unfold fits, Point_toString.
  rewrite !length_app. literal_lengths.
  fixed_ge 80%Z 25%nat. lia.
Qed.

Lemma Point_toString_overflows_witness :
  ~ fits 100 (Point_toString (mkPoint (S754_finite false 8388608 58)
                                      (S754_finite true 8388608 60)
                                      (S754_finite false 16777215 104))).
Proof.
  apply Point_toString_overflows; vm_compute; reflexivity.
Defined.

(** X10. [Velocity::toString] stays inside its array of [100] bytes when
    each component is finite with a magnitude below [2^73] (about
    [9.4e21]). *)
Theorem Velocity_toString_fits (v : Velocity float) :
  finite_below 73 (vx_ v) -> finite_below 73 (vy_ v) ->
  finite_below 73 (va_ v) ->
  fits 100 (Velocity_toString v).
Proof.
  intros Hx Hy Ha. unfold fits, Velocity_toString.
  rewrite !length_app. literal_lengths.
  fixed_le 73%Z 22%nat. lia.
Qed.

Lemma Velocity_toString_fits_witness :
  fits 100 (Velocity_toString (mkVelocity (fdiv (of_int 1) (of_int 2))
                                          (of_int (-3)) (S754_zero true))).
Proof.
  apply Velocity_toString_fits; split; vm_compute;
    first [reflexivity | discriminate | exact I].
Defined.

(** X11. [PVTPoint::toString] stays inside its array of [200] bytes when
    the seven floats are finite with a magnitude below [2^46] (about
    [7e13]). *)
Theorem PVTPoint_toString_fits (p : PVTPoint float) :
  finite_below 46 (x_ (position_ p)) -> finite_below 46 (y_ (position_ p)) ->
  finite_below 46 (a_ (position_ p)) ->
  finite_below 46 (vx_ (velocity_ p)) -> finite_below 46 (vy_ (velocity_ p)) ->
  finite_below 46 (va_ (velocity_ p)) ->
  finite_below 46 (time_ p) ->
  fits 200 (PVTPoint_toString p).
Proof.
  intros Hx Hy Ha Hvx Hvy Hva Ht.
  unfold fits, PVTPoint_toString, Point_toString, Velocity_toString.
  rewrite !length_app. literal_lengths.
  fixed_le 46%Z 14%nat. lia.
Qed.

Lemma PVTPoint_toString_fits_witness :
  fits 200 (PVTPoint_toString
              (mkPVTPoint (mkPoint (of_int 1) (of_int (-2)) (of_int 3))
                          (mkVelocity (fdiv (of_int 1) (of_int 2)) (of_int 0)
                                      (of_int 0))
                          (of_int 12))).
Proof.
  apply PVTPoint_toString_fits; split; vm_compute;
    first [reflexivity | discriminate | exact I].
Defined.

(** X12. [PVTPoint::toString] can overflow where its parts do not: with
    the six components of the point and of the velocity between [2^70]
    and [2^73] in magnitude, [Point::toString] and [Velocity::toString]
    stay inside their arrays of [100] bytes and the text of the
    [PVTPoint] does not fit its array of [200]. *)
Theorem PVTPoint_toString_overflows (p : PVTPoint float) :
  in_wide_band (x_ (position_ p)) -> in_wide_band (y_ (position_ p)) ->
  in_wide_band (a_ (position_ p)) ->
  in_wide_band (vx_ (velocity_ p)) -> in_wide_band (vy_ (velocity_ p)) ->
  in_wide_band (va_ (velocity_ p)) ->
  fits 100 (Point_toString (position_ p))
  /\ fits 100 (Velocity_toString (velocity_ p))
  /\ ~ fits 200 (PVTPoint_toString p).
Proof.
  intros [Gx Lx] [Gy Ly] [Ga La] [Gvx Lvx] [Gvy Lvy] [Gva Lva].
  pose proof (@format_fixed_length_min 3 (time_ p) ltac:(lia)) as Ht.
  unfold fits, PVTPoint_toString, Point_toString, Velocity_toString.
  rewrite !length_app. literal_lengths.
  fixed_le 73%Z 22%nat. fixed_ge 70%Z 22%nat. lia.
Qed.

Lemma PVTPoint_toString_overflows_witness :
  let big := S754_finite false 8388608 48 in
  let p := mkPVTPoint (mkPoint big big big) (mkVelocity big big big) (of_int 1) in
  fits 100 (Point_toString (position_ p))
  /\ fits 100 (Velocity_toString (velocity_ p))
  /\ ~ fits 200 (PVTPoint_toString p).
Proof.
  cbv zeta. apply PVTPoint_toString_overflows; split; try split; vm_compute;
    first [reflexivity | discriminate].
Defined.

(** X13. [SCurveParameters::toString] stays inside its array of [256]
    bytes when the three limits and the eight switch times are finite
    with a magnitude below [2^39] (about [5.5e11]). *)
Theorem SCurveParameters_toString_fits (params : SCurveParameters float) :
  finite_below 39 (v_lim_ params) -> finite_below 39 (a_lim_ params) ->
  finite_below 39 (j_lim_ params) ->
  (forall i : nat, (i < 8)%nat -> finite_below 39 (t_ (switch_point params i))) ->
  fits 256 (SCurveParameters_toString params).
Proof.
  intros Hv Ha Hj Ht.
  pose proof (Ht 0%nat ltac:(lia)) as T0. pose proof (Ht 1%nat ltac:(lia)) as T1.
  pose proof (Ht 2%nat ltac:(lia)) as T2. pose proof (Ht 3%nat ltac:(lia)) as T3.
  pose proof (Ht 4%nat ltac:(lia)) as T4. pose proof (Ht 5%nat ltac:(lia)) as T5.
  pose proof (Ht 6%nat ltac:(lia)) as T6. pose proof (Ht 7%nat ltac:(lia)) as T7.
  clear Ht.
  unfold fits, SCurveParameters_toString. cbv zeta.
  rewrite !length_app. literal_lengths.
  fixed_le 39%Z 12%nat. lia.
Qed.

Lemma valid_finite_below (x : float) :
  valid x -> finite_float x = true -> finite_below 128 x.
Proof.
  intros Vx Hf. split; [exact Hf | ].
  destruct x as [s | s | | s m e]; try exact I.
  destruct (bounded_digits _ _ Vx) as (Dx & Ex & _).
  unfold magnitude_at_most. lia.
Qed.

Lemma format_int_length (n : Z) :
  (- 2 ^ 31 <= n < 2 ^ 31)%Z -> (length (format_int n) <= 11)%nat.
Proof.
  intro Hn. unfold format_int. rewrite length_app.
  pose proof (minus_sign_length (n <? 0)%Z).
  pose proof (@decimal_digits_le (Z.abs n) 10 ltac:(lia) ltac:(lia)). lia.
Qed.

(** X14. [Trajectory::toString] stays inside its array of [1000] bytes
    whenever the texts of its two S-curves fit their arrays of [256]
    bytes, the two components of the direction are finite floats and the
    rotation direction is a 32-bit [int]. *)
Theorem Trajectory_toString_fits (traj : Trajectory float) :
  fits 256 (SCurveParameters_toString (trans_params_ traj)) ->
  fits 256 (SCurveParameters_toString (rot_params_ traj)) ->
  valid (e0 (trans_direction_ traj)) -> valid (e1 (trans_direction_ traj)) ->
  finite_float (e0 (trans_direction_ traj)) = true ->
  finite_float (e1 (trans_direction_ traj)) = true ->
  (- 2 ^ 31 <= rot_direction_ traj < 2 ^ 31)%Z ->
  fits 1000 (Trajectory_toString traj).
Proof.
  intros Ht Hr V0 V1 F0 F1 Hd.
  pose proof (@format_fixed_length_le 2 128 39 _ (valid_finite_below V0 F0)
                ltac:(lia) ltac:(vm_compute; reflexivity) ltac:(lia) ltac:(lia))
    as L0.
  pose proof (@format_fixed_length_le 2 128 39 _ (valid_finite_below V1 F1)
                ltac:(lia) ltac:(vm_compute; reflexivity) ltac:(lia) ltac:(lia))
    as L1.
  pose proof (format_int_length Hd) as Li.
  unfold fits in *. unfold Trajectory_toString.
  rewrite !length_app. literal_lengths. lia.
Qed.

Lemma SCurveParameters_toString_fits_witness :
  fits 256 (SCurveParameters_toString (zero_duration demo_limits)).
Proof.
  apply SCurveParameters_toString_fits;
    try (split; vm_compute; first [reflexivity | discriminate | exact I]).
  intros i Hi.
  do 8 (destruct i as [ | i];
        [split; vm_compute; first [reflexivity | discriminate | exact I] | ]).
  lia.
Defined.

Lemma Trajectory_toString_fits_witness :
  fits 1000 (Trajectory_toString (currentTrajectory_ fresh_generator)).
Proof.
  apply Trajectory_toString_fits;
    first [ vm_compute; reflexivity
          | unfold fits; vm_compute; lia
          | vm_compute; split; first [discriminate | reflexivity] ].
Defined.

(** ** The update fraction of the localization *)

Lemma norm_at_rest (order : summation) (v : Velocity float) :
  at_rest v ->
  Vector3f_norm order (mkVector3f (vx_ v) (vy_ v) (va_ v)) = S754_zero false.
Proof.
  destruct v as [[sx | | | ] [sy | | | ] [sa | | | ]]; try discriminate.
  intros _. destruct order, sx, sy, sa; reflexivity.
Qed.

Lemma update_fraction_zero_threshold (order : summation) (loc : Localization float) :
  is_zero (val_for_zero_update_ loc) = true -> at_rest (vel_ loc) ->
  update_fraction order loc = S754_nan.
Proof.
  intros Hz Hr. unfold update_fraction. cbv zeta.
  rewrite (@norm_at_rest order _ Hr).
  destruct (val_for_zero_update_ loc) as [sv | | | ]; try discriminate.
  destruct (update_fraction_at_zero_vel_ loc) as [s | s | | s m e];
    destruct sv; try destruct s; reflexivity.
Qed.

Lemma SFadd_nan_r (x : float) : SFadd prec emax x S754_nan = S754_nan.
Proof. destruct x; reflexivity. Qed.

(** X16. With [val_for_zero_update_] zero and the robot at rest (the
    state the constructor leaves), [updatePositionReading] sets the three
    components of the position to NaN, whatever it reads: the slope is a
    division by zero and its product with the zero speed is NaN. *)
Theorem zero_threshold_loses_position (cos sin : float -> float)
    (order : summation) (loc : Localization float) (global_position : Point float) :
  is_zero (val_for_zero_update_ loc) = true -> at_rest (vel_ loc) ->
  pos_ (updatePositionReading cos sin order loc global_position)
  = mkPoint S754_nan S754_nan S754_nan.
Proof.
  intros Hz Hr. unfold updatePositionReading. cbv zeta.
  rewrite (@update_fraction_zero_threshold order loc Hz Hr).
  unfold set_pos; cbn [pos_]. cbn [fadd fmul float_Scalar SFmul].
  rewrite !SFadd_nan_r. reflexivity.
Qed.

Lemma zero_threshold_loses_position_witness :
  pos_ (updatePositionReading (fun a => a) (fun a => a) sequential
          (Localization_ctor (fdiv (of_int 1) (of_int 2)) (of_int 0)
                             (of_int 30) (of_int 0))
          (mkPoint (of_int 1) (of_int 2) (of_int 0)))
  = mkPoint S754_nan S754_nan S754_nan.
Proof.
  apply zero_threshold_loses_position; reflexivity.
Defined.

(** Comparison is total on numbers. *)
Lemma SFltb_false_leb (x y : float) :
  x <> S754_nan -> y <> S754_nan -> SFltb x y = false -> SFleb y x = true.
Proof.
  unfold SFltb, SFleb, SFcompare; float_cases; simpl; intros Hx Hy;
    try congruence; try reflexivity;
    order_cases; simpl; try discriminate; try reflexivity; intros; lia.
Qed.

Lemma SFleb_refl (x : float) : x <> S754_nan -> SFleb x x = true.
Proof.
  destruct x as [s | s | | s m e]; try congruence; intros _;
    try (destruct s; reflexivity).
  apply SFleb_refl_finite.
Qed.

Lemma SFleb_not_nan (x y : float) :
  SFleb x y = true -> x <> S754_nan /\ y <> S754_nan.
Proof.
  unfold SFleb, SFcompare; destruct x, y; simpl; try discriminate;
    intros _; split; discriminate.
Qed.

Lemma nan_or_number (x : float) : x = S754_nan \/ x <> S754_nan.
Proof. destruct x; [right | right | left | right]; congruence. Qed.

Lemma clamp_range (w u0 : float) :
  let r := std_max (std_min w u0) f0 in
  r = S754_nan
  \/ (SFleb (S754_zero false) r = true
      /\ (SFleb (S754_zero false) u0 = true -> SFleb r u0 = true)).
Proof.
  cbv zeta. unfold std_max, std_min. cbn [fltb float_Scalar]. rewrite f0_float.
  set (m := if SFltb u0 w then u0 else w).
  destruct (SFltb m (S754_zero false)) eqn:Hm0.
  - right. split; [reflexivity | intro H0; exact H0].
  - destruct (nan_or_number m) as [Hn | Hn]; [left; exact Hn | right].
    split.
    + apply SFltb_false_leb; [exact Hn | discriminate | exact Hm0].
    + intro H0. destruct (SFleb_not_nan _ _ H0) as [_ Hu0].
      subst m. destruct (SFltb u0 w) eqn:Hlt.
      * apply SFleb_refl; exact Hu0.
      * apply SFltb_false_leb; assumption.
Qed.

(** X15. The update fraction [updatePositionReading] applies is NaN or
    is not negative, and then it is not above [update_fraction_at_zero_vel_]
    when that one is not negative. *)
Theorem update_fraction_range (order : summation) (loc : Localization float) :
  let u := update_fraction order loc in
  u = S754_nan
  \/ (SFleb (S754_zero false) u = true
      /\ (SFleb (S754_zero false) (update_fraction_at_zero_vel_ loc) = true ->
          SFleb u (update_fraction_at_zero_vel_ loc) = true)).
Proof.
  cbv zeta. unfold update_fraction. cbv zeta. apply clamp_range.
Qed.

(** X17. At rest, with a finite slope, the update fraction is the
    configured [update_fraction_at_zero_vel_] (as [==] compares floats),
    when that one is not negative. *)
Theorem update_fraction_at_rest (order : summation) (loc : Localization float) :
  at_rest (vel_ loc) ->
  SFleb (S754_zero false) (update_fraction_at_zero_vel_ loc) = true ->
  finite_float (fdiv (update_fraction_at_zero_vel_ loc)
                     (fopp (val_for_zero_update_ loc))) = true ->
  ieee_eq (update_fraction order loc) (update_fraction_at_zero_vel_ loc).
Proof.
  intros Hr H0 Hs. unfold update_fraction. cbv zeta.
  rewrite (@norm_at_rest order _ Hr).
  destruct (fdiv (update_fraction_at_zero_vel_ loc)
                 (fopp (val_for_zero_update_ loc))) as [ss | ss | | ss ms es];
    try discriminate Hs;
    destruct (update_fraction_at_zero_vel_ loc) as [s | s | | s m e];
    try discriminate H0;
    repeat match goal with s : bool |- _ => destruct s end;
    try discriminate H0; try exact I;
    unfold std_max, std_min; cbn [fmul fadd fltb float_Scalar SFmul SFadd xorb];
    rewrite ?f0_float;
    try (cbn; exact I).
  all: repeat match goal with
       | |- context [SFltb (S754_finite ?s ?m ?e) (S754_finite ?s ?m ?e)] =>
           destruct (SFltb (S754_finite s m e) (S754_finite s m e))
       end; cbn; reflexivity.
Qed.

Lemma update_fraction_at_rest_witness :
  ieee_eq (update_fraction sequential
             (Localization_ctor (fdiv (of_int 1) (of_int 2))
                                (fdiv (of_int 1) (of_int 10))
                                (of_int 30) (of_int 0)))
          (fdiv (of_int 1) (of_int 2)).
Proof.
  apply (@update_fraction_at_rest sequential
           (Localization_ctor (fdiv (of_int 1) (of_int 2))
                              (fdiv (of_int 1) (of_int 10))
                              (of_int 30) (of_int 0))); reflexivity.
Defined.

(** ** The adjusted measurement *)

(** The quotient computed by the division is below
    [2^(d1 + e1 - (d2 + e2) + 1)]. *)
Lemma SFdiv_core_binary_quotient (mx my : positive) (e1 e2 : Z) :
  let '(q, e', _) := SFdiv_core_binary prec emax (Zpos mx) e1 (Zpos my) e2 in
  (Zdigits2 q + e'
   <= Z.max (Zpos (digits2_pos mx) + e1 - (Zpos (digits2_pos my) + e2) + 1)
            (fexp prec emax (Zpos (digits2_pos mx) + e1
                             - (Zpos (digits2_pos my) + e2))))%Z.
Proof.
  unfold SFdiv_core_binary.
  change (Zdigits2 (Zpos mx)) with (Zpos (digits2_pos mx)).
  change (Zdigits2 (Zpos my)) with (Zpos (digits2_pos my)).
  set (d1 := Zpos (digits2_pos mx)). set (d2 := Zpos (digits2_pos my)).
  set (e' := Z.min (fexp prec emax (d1 + e1 - (d2 + e2))) (e1 - e2)).
  set (s := (e1 - e2 - e')%Z).
  set (m' := match s with
             | Z.pos _ => Z.shiftl (Zpos mx) s
             | 0%Z => Zpos mx
             | Z.neg _ => 0%Z
             end).
  assert (Hs : (0 <= s)%Z) by (subst s e'; lia).
  assert (Hm' : m' = (Zpos mx * 2 ^ s)%Z).
  { subst m'. destruct s as [ | p | p] eqn:Es; [ | | lia].
    - rewrite Z.pow_0_r, Z.mul_1_r. reflexivity.
    - rewrite Z.shiftl_mul_pow2 by lia. reflexivity. }
  destruct (Z.div_eucl m' (Zpos my)) as [q r] eqn:Ediv.
  assert (Hq : q = (m' / Zpos my)%Z) by (unfold Z.div; rewrite Ediv; reflexivity).
  clearbody m'. subst m'.
  assert (Hp : (0 < 2 ^ s)%Z) by (apply Z.pow_pos_nonneg; lia).
  assert (Hq0 : (0 <= q)%Z) by (subst q; apply Z.div_pos; lia).
  destruct (Z.eq_dec q 0) as [Hz | Hnz].
  - rewrite Hz. simpl Zdigits2. subst e'. lia.
  - assert (Hqm : (q * Zpos my <= Zpos mx * 2 ^ s)%Z).
    { subst q. rewrite Z.mul_comm. apply Z.mul_div_le. lia. }
    pose proof (digits2_pos_bounds mx) as [_ Hx].
    pose proof (digits2_pos_bounds my) as [Hy _].
    fold d1 in Hx. fold d2 in Hy.
    assert (Hd1 : (1 <= d1)%Z) by (subst d1; lia).
    assert (Hd2 : (1 <= d2)%Z) by (subst d2; lia).
    assert (Hql : (2 ^ (Zdigits2 q - 1) <= q)%Z).
    { rewrite Zdigits2_log2 by lia.
      replace (Z.log2 q + 1 - 1)%Z with (Z.log2 q) by lia.
      apply Z.log2_spec; lia. }
    assert (Hdq : (1 <= Zdigits2 q)%Z).
    { rewrite Zdigits2_log2 by lia. pose proof (Z.log2_nonneg q). lia. }
    assert (Hlt : (2 ^ (Zdigits2 q - 1 + (d2 - 1)) < 2 ^ (d1 + s))%Z).
    { rewrite !Z.pow_add_r by lia.
      assert (0 < 2 ^ (d2 - 1))%Z by (apply Z.pow_pos_nonneg; lia).
      assert (0 < 2 ^ (Zdigits2 q - 1))%Z by (apply Z.pow_pos_nonneg; lia).
      nia. }
    apply Z.pow_lt_mono_r_iff in Hlt; [ | lia | lia].
    subst s. lia.
Qed.

(** A quotient whose order of magnitude is below [2^126] does not
    overflow. *)
Lemma SFdiv_finite_quotient (sx sy : bool) (mx my : positive) (ex ey : Z) :
  (Zpos (digits2_pos mx) + ex - (Zpos (digits2_pos my) + ey) + 1 <= 126)%Z ->
  finite_float (SFdiv prec emax (S754_finite sx mx ex) (S754_finite sy my ey))
  = true.
Proof.
  intro Hmag. unfold SFdiv.
  pose proof (SFdiv_core_binary_digits mx my ex ey) as Hd.
  pose proof (SFdiv_core_binary_quotient mx my ex ey) as Hm.
  destruct (SFdiv_core_binary prec emax (Zpos mx) ex (Zpos my) ey) as [[q e'] l].
  destruct Hd as [Hq He].
  apply binary_round_aux_finite; [exact Hq | exact He | ].
  rewrite fexp_binary32 in Hm. lia.
Qed.

(** Millimetres to metres: a quotient by one thousand is finite. *)
Lemma SFdiv_thousand_finite (x : float) :
  valid x -> finite_float x = true ->
  finite_float (SFdiv prec emax x (float_of_int 1000)) = true.
Proof.
  intros Vx Hf.
  change (float_of_int 1000) with (S754_finite false 16384000 (-14)).
  destruct x as [s | s | | s m e]; try discriminate Hf; [reflexivity | ].
  destruct (bounded_digits _ _ Vx) as (Dx & Ex & _).
  apply SFdiv_finite_quotient.
  change (Zpos (digits2_pos 16384000)) with 24%Z. lia.
Qed.

Lemma SFmul_zero_l (x : float) :
  finite_float x = true -> is_zero (SFmul prec emax (S754_zero false) x) = true.
Proof. destruct x; try discriminate; reflexivity. Qed.

Lemma sum3_zeros (order : summation) (a b : float) :
  is_zero a = true -> is_zero b = true ->
  sum3 order a b (S754_zero false) = S754_zero false.
Proof.
  destruct a as [sa | | | ], b as [sb | | | ]; try discriminate.
  intros _ _. destruct order, sa, sb; reflexivity.
Qed.

Lemma SFsub_zero_r (x : float) : SFsub prec emax x (S754_zero false) = x.
Proof. destruct x as [[ | ] | | | ]; reflexivity. Qed.

(** X18. With finite offsets the correction for the position of the
    beacons leaves the measured heading as it is, bit for bit and for
    either order of summation. *)
Theorem offsets_keep_measured_heading (cos sin : float -> float)
    (order : summation) (loc : Localization float) (global_position : Point float) :
  valid (mm_x_offset_ loc) -> valid (mm_y_offset_ loc) ->
  finite_float (mm_x_offset_ loc) = true ->
  finite_float (mm_y_offset_ loc) = true ->
  c2 (adjusted_measured_position cos sin order loc global_position)
  = a_ global_position.
Proof.
  intros Vx Vy Fx Fy.
  unfold adjusted_measured_position. cbv zeta.
  unfold Vector3f_sub, Matrix3f_mul. cbn [c2 row2].
  unfold dot3. cbn [c0 c1 c2].
  cbn [fmul fsub fdiv of_int float_Scalar].
  change (f0 : float) with (S754_zero false).
  change (f1 : float) with (float_of_int 1).
  change (SFmul prec emax (float_of_int 1) (S754_zero false))
    with (S754_zero false).
  rewrite sum3_zeros.
  - apply SFsub_zero_r.
  - apply SFmul_zero_l. apply SFdiv_thousand_finite; assumption.
  - apply SFmul_zero_l. apply SFdiv_thousand_finite; assumption.
Qed.

Lemma offsets_keep_measured_heading_witness :
  c2 (adjusted_measured_position (fun a : float => a) (fun a : float => a) halves
        (Localization_ctor (fdiv (of_int 1) (of_int 2))
                           (fdiv (of_int 1) (of_int 10))
                           (of_int 30) (of_int (-12)))
        (mkPoint (of_int 1) (of_int 2) (fdiv (of_int 1) (of_int 3))))
  = fdiv (of_int 1) (of_int 3).
Proof.
  apply (@offsets_keep_measured_heading (fun a : float => a) (fun a : float => a) halves
           (Localization_ctor (fdiv (of_int 1) (of_int 2))
                              (fdiv (of_int 1) (of_int 10))
                              (of_int 30) (of_int (-12)))
           (mkPoint (of_int 1) (of_int 2) (fdiv (of_int 1) (of_int 3))));
    reflexivity.
Defined.

(** ** The direction of a position update *)

Lemma binary_round_aux_signed (s : bool) (m e : Z) (l : location) :
  (0 <= m)%Z -> signed s (binary_round_aux prec emax s m e l).
Proof.
  intros Hm. unfold binary_round_aux.
  destruct (shr_fexp prec emax m e l) as [mrs' e'] eqn:S1.
  destruct (@shr_fexp_exponent _ _ _ _ _ Hm S1) as [Ee' Em'].
  set (m1 := round_nearest_even (shr_m mrs') (loc_of_shr_record mrs')).
  pose proof (round_nearest_even_bounds (shr_m mrs') (loc_of_shr_record mrs')) as Hr.
  fold m1 in Hr.
  assert (Hpow : (0 < 2 ^ (e' - e))%Z) by (apply Z.pow_pos_nonneg; lia).
  assert (Hm' : (0 <= shr_m mrs')%Z) by (rewrite Em'; apply Z.div_pos; lia).
  assert (Hm1 : (0 <= m1)%Z) by lia.
  destruct (shr_fexp prec emax m1 e' loc_Exact) as [mrs'' e''] eqn:S2.
  destruct (@shr_fexp_exponent _ _ _ _ _ Hm1 S2) as [Ee'' Em''].
  assert (Hpow2 : (0 < 2 ^ (e'' - e'))%Z) by (apply Z.pow_pos_nonneg; lia).
  assert (Hm2 : (0 <= shr_m mrs'')%Z) by (rewrite Em''; apply Z.div_pos; lia).
  destruct (shr_m mrs'') as [ | p | p]; [reflexivity | | lia].
  destruct (Z.leb e'' (emax - prec)); reflexivity.
Qed.

Lemma binary_round_signed (s : bool) (m : positive) (e : Z) :
  signed s (binary_round prec emax s m e).
Proof.
  unfold binary_round.
  destruct (shl_align m e _) as [mz ez].
  apply binary_round_aux_signed. lia.
Qed.

(** The rounding does not look at the sign. *)
Lemma binary_round_opp (m : positive) (e : Z) :
  binary_round prec emax true m e = SFopp (binary_round prec emax false m e).
Proof.
  unfold binary_round.
  destruct (shl_align m e _) as [mz ez].
  unfold binary_round_aux.
  destruct (shr_fexp prec emax (Zpos mz) ez loc_Exact) as [mrs' e'].
  destruct (shr_fexp prec emax _ e' loc_Exact) as [mrs'' e''].
  destruct (shr_m mrs''); try reflexivity.
  destruct (Z.leb e'' (emax - prec)); reflexivity.
Qed.

Lemma SFleb_opp (x y : float) : SFleb (SFopp x) (SFopp y) = SFleb y x.
Proof.
  unfold SFleb, SFcompare, SFopp; float_cases; simpl; try reflexivity;
    order_cases; simpl; try reflexivity; try lia.
Qed.
(** Rounding a number that is not above a float does not pass it. *)
Lemma binary_round_below (M : positive) (ez : Z) (mx : positive) (ex : Z) :
  bounded prec emax mx ex = true ->
  (ez <= ex)%Z ->
  (Zpos M <= Zpos mx * 2 ^ (ex - ez))%Z ->
  SFleb (binary_round prec emax false M ez) (S754_finite false mx ex) = true.
Proof.
  intros Hb Hez HM. unfold binary_round.
  pose proof (shl_align_value M ez (fexp prec emax (Zpos (digits2_pos M) + ez)))
    as [Hm He].
  destruct (shl_align M ez (fexp prec emax (Zpos (digits2_pos M) + ez)))
    as [mz ez']; cbn [fst snd] in Hm, He.
  assert (Hpow : (0 < 2 ^ (ez - ez'))%Z) by (apply Z.pow_pos_nonneg; lia).
  apply binary_round_aux_below; [exact Hb | lia | | lia | ].
  - rewrite Hm, Zdigits2_mul_pow2 by lia.
    change (Zdigits2 (Zpos M)) with (Zpos (digits2_pos M)).
    replace (Zpos (digits2_pos M) + (ez - ez') + ez')%Z
      with (Zpos (digits2_pos M) + ez)%Z by lia.
    lia.
  - rewrite Hm.
    replace (ex - ez')%Z with ((ex - ez) + (ez - ez'))%Z by lia.
    rewrite Z.pow_add_r by lia. nia.
Qed.

(** The order of two floats is the order of their mantissas written at
    the smaller exponent. *)
Lemma SFleb_aligned (sx sy : bool) (mx my : positive) (ex ey : Z) :
  bounded prec emax mx ex = true ->
  bounded prec emax my ey = true ->
  SFleb (S754_finite sx mx ex) (S754_finite sy my ey) = true ->
  let ez := Z.min ex ey in
  (cond_Zopp sx (Zpos (fst (shl_align mx ex ez)))
   <= cond_Zopp sy (Zpos (fst (shl_align my ey ez))))%Z.
Proof.
  intros Hx Hy Hle ez.
  pose proof (shl_align_value mx ex ez) as [Ha Ea].
  pose proof (shl_align_value my ey ez) as [Hb Eb].
  rewrite Ea in Ha. rewrite Eb in Hb.
  replace (Z.min ex ez) with ez in Ha by (subst ez; lia).
  replace (Z.min ey ez) with ez in Hb by (subst ez; lia).
  set (a := fst (shl_align mx ex ez)) in *.
  set (b := fst (shl_align my ey ez)) in *.
  assert (Hord : forall (m1 m2 : positive) (e1 e2 : Z),
             bounded prec emax m1 e1 = true ->
             bounded prec emax m2 e2 = true ->
             SFleb (S754_finite false m1 e1) (S754_finite false m2 e2) = true ->
             (Zpos m1 * 2 ^ (e1 - Z.min e1 e2)
              <= Zpos m2 * 2 ^ (e2 - Z.min e1 e2))%Z).
  { intros m1 m2 e1 e2 H1 H2 H.
    apply SFleb_finite_nonneg_inv in H. destruct H as [Hlt | [Heq Hm]].
    - pose proof (canonical_exponent_order _ _ H1 H2 Hlt).
      replace (Z.min e1 e2) with e1 by lia.
      rewrite Z.sub_diag, Z.pow_0_r. lia.
    - subst e2. rewrite Z.min_id, Z.sub_diag, Z.pow_0_r. lia. }
  destruct sx, sy; cbn [cond_Zopp].
  - change (S754_finite true mx ex) with (SFopp (S754_finite false mx ex)) in Hle.
    change (S754_finite true my ey) with (SFopp (S754_finite false my ey)) in Hle.
    rewrite SFleb_opp in Hle.
    pose proof (Hord _ _ _ _ Hy Hx Hle) as H.
    rewrite (Z.min_comm ey ex) in H. fold ez in H. lia.
  - lia.
  - discriminate Hle.
  - pose proof (Hord _ _ _ _ Hx Hy Hle) as H. fold ez in H. lia.
Qed.

Lemma signed_not_negative (r : float) : signed false r -> not_negative r.
Proof. destruct r as [s | s | | s m e]; simpl; try intros ->; try reflexivity; intros []. Qed.

Lemma signed_not_positive (r : float) : signed true r -> not_positive r.
Proof. destruct r as [s | s | | s m e]; simpl; try intros ->; try reflexivity; intros []. Qed.

Lemma binary_normalize_sign (m e : Z) :
  ((0 <= m)%Z -> not_negative (binary_normalize prec emax m e false))
  /\ ((m <= 0)%Z -> not_positive (binary_normalize prec emax m e false)).
Proof.
  destruct m as [ | p | p]; cbn [binary_normalize]; split; intro H;
    try reflexivity; try lia.
  - apply signed_not_negative, binary_round_signed.
  - apply signed_not_positive, binary_round_signed.
Qed.

(** The difference of two ordered floats has the sign of the order. *)
Lemma SFsub_sign (a b : float) :
  valid a -> valid b -> SFleb a b = true ->
  (SFsub prec emax b a = S754_nan \/ not_negative (SFsub prec emax b a))
  /\ (SFsub prec emax a b = S754_nan \/ not_positive (SFsub prec emax a b)).
Proof.
  intros Va Vb Hle.
  destruct a as [sa | sa | | sa ma ea], b as [sb | sb | | sb mb eb];
    try discriminate Hle;
    try (destruct sa, sb; try discriminate Hle;
         split; first [left; reflexivity | right; reflexivity]; fail);
    try (destruct sa; try discriminate Hle;
         split; first [left; reflexivity | right; reflexivity]; fail);
    try (destruct sb; try discriminate Hle;
         split; first [left; reflexivity | right; reflexivity]; fail).
  pose proof (@SFleb_aligned _ _ _ _ _ _ Va Vb Hle) as H. cbv zeta in H.
  split; right; unfold SFsub.
  - rewrite (Z.min_comm eb ea). apply binary_normalize_sign. lia.
  - apply binary_normalize_sign. lia.
Qed.

(** A product with a factor that is not negative has the sign of the
    other factor. *)
Lemma SFmul_sign (u d : float) :
  not_negative u ->
  (not_negative d ->
   SFmul prec emax u d = S754_nan \/ not_negative (SFmul prec emax u d))
  /\ (not_positive d ->
      SFmul prec emax u d = S754_nan \/ not_positive (SFmul prec emax u d)).
Proof.
  intro Hu.
  destruct u as [su | su | | su mu eu]; try discriminate Hu;
    try (destruct su; try discriminate Hu);
    destruct d as [sd | sd | | sd md ed];
    split; intro Hd; try discriminate Hd;
    try (destruct sd; try discriminate Hd);
    try (left; reflexivity); try (right; reflexivity);
    right; cbn [SFmul xorb].
  - apply signed_not_negative, binary_round_aux_signed. lia.
  - apply signed_not_positive, binary_round_aux_signed. lia.
Qed.

(** Adding a float that is not negative does not give less. *)
Lemma SFadd_not_negative (x p : float) :
  valid x -> not_negative p ->
  SFadd prec emax x p = S754_nan \/ SFleb x (SFadd prec emax x p) = true.
Proof.
  intros Vx Hp.
  destruct p as [sp | sp | | sp mp ep]; try discriminate Hp;
    try (destruct sp; try discriminate Hp);
    destruct x as [sx | sx | | sx mx ex];
    try (left; reflexivity);
    try (right; apply SFleb_refl_finite);
    try (destruct sx; first [left; reflexivity | right; reflexivity]; fail).
  destruct sx.
  - right. unfold SFadd. cbn [cond_Zopp Z.opp].
    pose proof (shl_align_value mx ex (Z.min ex ep)) as [Hm He].
    set (ez := Z.min ex ep) in *.
    replace (snd (shl_align mx ex ez)) with ez in Hm by (rewrite He; subst ez; lia).
    set (a := fst (shl_align mx ex ez)) in *.
    set (b := fst (shl_align mp ep ez)) in *.
    destruct (Z.neg a + Z.pos b)%Z as [ | k | k] eqn:Ek; cbn [binary_normalize].
    + reflexivity.
    + pose proof (binary_round_signed false k ez) as Hs.
      destruct (binary_round prec emax false k ez) as [s | s | | s m e];
        simpl in Hs; try contradiction; subst s; reflexivity.
    + rewrite binary_round_opp.
      change (S754_finite true mx ex) with (SFopp (S754_finite false mx ex)).
      rewrite SFleb_opp.
      apply binary_round_below; [exact Vx | subst ez; lia | lia].
  - right. apply SFadd_duration_finite. exact Vx.
Qed.

(** Adding a float that is not positive does not give more. *)
Lemma SFadd_not_positive (x p : float) :
  valid x -> not_positive p ->
  SFadd prec emax x p = S754_nan \/ SFleb (SFadd prec emax x p) x = true.
Proof.
  intros Vx Hp.
  destruct p as [sp | sp | | sp mp ep]; try discriminate Hp;
    try (destruct sp; try discriminate Hp);
    destruct x as [sx | sx | | sx mx ex];
    try (left; reflexivity);
    try (right; apply SFleb_refl_finite);
    try (destruct sx; first [left; reflexivity | right; reflexivity]; fail).
  destruct sx.
  - right. unfold SFadd. cbn [cond_Zopp Z.opp].
    pose proof (shl_align_value mx ex (Z.min ex ep)) as [Hm He].
    set (ez := Z.min ex ep) in *.
    replace (snd (shl_align mx ex ez)) with ez in Hm by (rewrite He; subst ez; lia).
    set (a := fst (shl_align mx ex ez)) in *.
    set (b := fst (shl_align mp ep ez)) in *.
    change (Z.neg a + Z.neg b)%Z with (Z.neg (a + b)).
    cbn [binary_normalize]. rewrite binary_round_opp.
    change (S754_finite true mx ex) with (SFopp (S754_finite false mx ex)).
    rewrite SFleb_opp.
    apply binary_round_above;
      [exact Vx | subst ez; lia | rewrite Pos2Z.inj_add, <- Hm; lia].
  - right. unfold SFadd. cbn [cond_Zopp Z.opp].
    pose proof (shl_align_value mx ex (Z.min ex ep)) as [Hm He].
    set (ez := Z.min ex ep) in *.
    replace (snd (shl_align mx ex ez)) with ez in Hm by (rewrite He; subst ez; lia).
    set (a := fst (shl_align mx ex ez)) in *.
    set (b := fst (shl_align mp ep ez)) in *.
    destruct (Z.pos a + Z.neg b)%Z as [ | k | k] eqn:Ek; cbn [binary_normalize].
    + reflexivity.
    + apply binary_round_below; [exact Vx | subst ez; lia | lia].
    + pose proof (binary_round_signed true k ez) as Hs.
      destruct (binary_round prec emax true k ez) as [s | s | | s m e];
        simpl in Hs; try contradiction; subst s; reflexivity.
Qed.

(** A step from [x] by a share [u], not negative, of the way to [goal]. *)
Lemma blend_toward (x goal u : float) :
  valid x -> valid goal ->
  u = S754_nan \/ not_negative u ->
  toward x goal (SFadd prec emax x (SFmul prec emax u (SFsub prec emax goal x))).
Proof.
  intros Vx Vg [-> | Hu].
  - left. destruct x; reflexivity.
  - set (new := SFadd prec emax x (SFmul prec emax u (SFsub prec emax goal x))).
    destruct (nan_or_number new) as [Hn | Hn]; [left; exact Hn | right].
    assert (Hstep : forall d : float,
               d = SFsub prec emax goal x ->
               (d = S754_nan \/ not_negative d ->
                SFleb x (SFadd prec emax x (SFmul prec emax u d)) = true
                \/ SFadd prec emax x (SFmul prec emax u d) = S754_nan)
               /\ (d = S754_nan \/ not_positive d ->
                   SFleb (SFadd prec emax x (SFmul prec emax u d)) x = true
                   \/ SFadd prec emax x (SFmul prec emax u d) = S754_nan)).
    { intros d _. split; intros [-> | Hd].
      - right. destruct u, x; reflexivity.
      - destruct (proj1 (SFmul_sign d Hu) Hd) as [-> | Hp].
        + right. destruct x; reflexivity.
        + destruct (SFadd_not_negative Vx Hp) as [E | E]; [right | left]; exact E.
      - right. destruct u, x; reflexivity.
      - destruct (proj2 (SFmul_sign d Hu) Hd) as [-> | Hp].
        + right. destruct x; reflexivity.
        + destruct (SFadd_not_positive Vx Hp) as [E | E]; [right | left]; exact E. }
    destruct (Hstep _ eq_refl) as [Hup Hdown]. fold new in Hup, Hdown.
    split; intro Hle.
    + destruct (Hup (proj1 (SFsub_sign Vx Vg Hle))) as [E | E];
        [exact E | contradiction].
    + destruct (Hdown (proj2 (SFsub_sign Vg Vx Hle))) as [E | E];
        [exact E | contradiction].
Qed.

Lemma SFopp_valid (x : float) : valid x -> valid (SFopp x).
Proof. destruct x; intro V; exact V. Qed.

Lemma sum3_valid (order : summation) (a b c : float) :
  valid a -> valid b -> valid c -> valid (sum3 order a b c).
Proof.
  intros Va Vb Vc. destruct order; cbn [sum3 fadd float_Scalar];
    repeat apply SFadd_valid; assumption.
Qed.

(** The adjusted measurement is made of floats. *)
Lemma adjusted_measured_position_valid (cos sin : float -> float)
    (order : summation) (loc : Localization float) (global_position : Point float) :
  valid_point global_position ->
  valid (cos (a_ global_position)) -> valid (sin (a_ global_position)) ->
  let adjusted := adjusted_measured_position cos sin order loc global_position in
  valid (c0 adjusted) /\ valid (c1 adjusted) /\ valid (c2 adjusted).
Proof.
  intros (Vx & Vy & Va) Vc Vs. cbv zeta.
  unfold adjusted_measured_position, Vector3f_sub, Matrix3f_mul, dot3.
  cbn [c0 c1 c2 row0 row1 row2 fsub fmul fdiv fopp float_Scalar float_Negation].
  assert (V0 : valid (f0 : float)) by reflexivity.
  assert (V1 : valid (f1 : float)) by reflexivity.
  repeat split; apply SFsub_valid; try assumption;
    apply sum3_valid; apply SFmul_valid;
    first [assumption | apply SFdiv_valid | apply SFopp_valid; assumption].
Qed.

(** X19. In binary32, a position update never moves a coordinate away from
    the adjusted measurement: each new coordinate is NaN, or it is not
    below the old one when the measurement is not below it, and not above
    the old one when the measurement is not above it. *)
Theorem position_update_toward (cos sin : float -> float) (order : summation)
    (loc : Localization float) (global_position : Point float) :
  valid_point (pos_ loc) -> valid_point global_position ->
  valid (cos (a_ global_position)) -> valid (sin (a_ global_position)) ->
  let adjusted := adjusted_measured_position cos sin order loc global_position in
  let loc' := updatePositionReading cos sin order loc global_position in
  toward (x_ (pos_ loc)) (c0 adjusted) (x_ (pos_ loc'))
  /\ toward (y_ (pos_ loc)) (c1 adjusted) (y_ (pos_ loc'))
  /\ toward (a_ (pos_ loc)) (c2 adjusted) (a_ (pos_ loc')).
Proof.
  intros (Vx & Vy & Va) Vg Vc Vs adjusted loc'.
  destruct (@adjusted_measured_position_valid cos sin order loc _ Vg Vc Vs)
    as (V0 & V1 & V2).
  fold adjusted in V0, V1, V2.
  assert (Hu : update_fraction order loc = S754_nan
               \/ not_negative (update_fraction order loc)).
  { destruct (update_fraction_range order loc) as [E | [E _]];
      [left | right]; exact E. }
  subst loc'. unfold updatePositionReading. cbv zeta. fold adjusted.
  cbn [set_pos pos_ x_ y_ a_ fadd fmul fsub float_Scalar].
  repeat split; apply blend_toward; assumption.
Qed.

Lemma position_update_toward_witness :
  let loc :=
    mkLocalization (point_of_ints (-1) 0 0) (Velocity_ctor None None None)
                   (of_int 1) (fdiv (of_int 1) (of_int 10))
                   (of_int 0) (of_int 0) in
  let reading : Point float := mkPoint (fdiv (of_int 7) (of_int 100)) f0 f0 in
  let one (a : float) : float := of_int 1 in
  let zero (a : float) : float := of_int 0 in
  let adjusted := adjusted_measured_position one zero sequential loc reading in
  let loc' := updatePositionReading one zero sequential loc reading in
  toward (x_ (pos_ loc)) (c0 adjusted) (x_ (pos_ loc'))
  /\ toward (y_ (pos_ loc)) (c1 adjusted) (y_ (pos_ loc'))
  /\ toward (a_ (pos_ loc)) (c2 adjusted) (a_ (pos_ loc')).
Proof.
  intros loc reading one zero.
  apply (@position_update_toward one zero sequential loc reading);
    vm_compute; repeat split; reflexivity.
Defined.

(** ** The zero time step *)

(** X22. [updateVelocityReading] with a time step of zero leaves the
    value of every coordinate of the position as it is (the sign of a
    zero apart) when the velocity it stores is finite. *)
Theorem zero_time_step_keeps_position (cos sin : float -> float)
    (loc : Localization float) (local_cart_vel : Velocity float) (dt : float) :
  let loc' := updateVelocityReading cos sin loc local_cart_vel dt in
  is_zero dt = true ->
  finite_float (vx_ (vel_ loc')) = true ->
  finite_float (vy_ (vel_ loc')) = true ->
  finite_float (va_ (vel_ loc')) = true ->
  F2X (x_ (pos_ loc')) = F2X (x_ (pos_ loc))
  /\ F2X (y_ (pos_ loc')) = F2X (y_ (pos_ loc))
  /\ F2X (a_ (pos_ loc')) = F2X (a_ (pos_ loc)).
Proof.
  cbv zeta. unfold updateVelocityReading. cbv zeta.
  cbn [pos_ vel_ x_ y_ a_ vx_ vy_ va_]. intros Hdt Hx Hy Ha.
  cbn [fadd fmul float_Scalar].
  repeat split; apply SFadd_zero_step; assumption.
Qed.

Lemma zero_time_step_keeps_position_witness :
  let loc := Localization_ctor (fdiv (of_int 1) (of_int 2)) (of_int 1)
                               (of_int 0) (of_int 0) in
  let loc' := updateVelocityReading (fun _ : float => of_int 1)
                (fun _ : float => of_int 0) loc
                (mkVelocity (of_int 2) (of_int 1) (of_int 3)) (of_int 0) in
  F2X (x_ (pos_ loc')) = F2X (x_ (pos_ loc))
  /\ F2X (y_ (pos_ loc')) = F2X (y_ (pos_ loc))
  /\ F2X (a_ (pos_ loc')) = F2X (a_ (pos_ loc)).
Proof.
  cbv zeta.
  apply (@zero_time_step_keeps_position (fun _ : float => of_int 1)
           (fun _ : float => of_int 0)
           (Localization_ctor (fdiv (of_int 1) (of_int 2)) (of_int 1)
                              (of_int 0) (of_int 0))
           (mkVelocity (of_int 2) (of_int 1) (of_int 3)) (of_int 0));
    reflexivity.
Defined.

(** ** Pins *)

(** X23. No two signals of [globals.h] share a pin. *)
Theorem pins_pairwise_distinct : NoDup pins.
Proof.
  unfold pins. repeat constructor; simpl; intuition discriminate.
Qed.
